(** * hivemind-go: the agent orchestration core, embedded in Rocq

  A shallow embedding of the Go packages [history], [agent], [assistants]
  and [tools]: the history strategies, the action codec, the agent loop
  with its background jobs, the parallel task delegator and the
  hierarchical context store.

  Conventions.  A Go [string] is a byte string ([string] of [ascii]); a Go
  [int] is a [Z] (the code only compares ints, measures lengths and counts
  up to a bound that is itself an int, so no operation can wrap around); a
  slice is a [list]; a [map] is a [gmap].  A Go [error] is represented by
  its [Error()] text.  Whatever the Go runtime leaves
  unspecified (the order of [range] over a map, the instant at which a
  goroutine completes) is supplied from outside as an explicit argument. *)

From Stdlib Require Import ZArith Ascii String List Lia.
From stdpp Require Import base tactics option list strings gmap fin_maps pretty.

#[global] Set Warnings "-register-all".

Open Scope string_scope.
Open Scope Z_scope.

(* ===================================================================== *)
(** * Go built-ins used by the code                                        *)
(* ===================================================================== *)

Module Go.

(** [(T, error)]: a Go call that either yields a value or an error text. *)
Inductive result (A : Type) : Type :=
| Ok (a : A)
| Err (e : string).
Arguments Ok {A} a.
Arguments Err {A} e.

(** [len(s)] as a Go [int]. *)
Definition len {A} (s : list A) : Z := Z.of_nat (length s).

(** [make([]T, n)]: [n] zero values. *)
Definition make {A} (zero : A) (n : Z) : list A := replicate (Z.to_nat n) zero.

(** [copy(dst, src)]: overwrite the first [min(len dst, len src)] cells of
    [dst] with those of [src]; the result is [dst] after the call. *)
Definition copy {A} (dst src : list A) : list A :=
  take (length dst) src ++ drop (length src) dst.

(** [s[start:]] for [0 <= start <= len(s)]. *)
Definition slice_from {A} (s : list A) (start : Z) : list A :=
  drop (Z.to_nat start) s.

(** The order in which [range] visits a map is unspecified.  A seed picks
    it: each number selects (modulo the count) which of the entries not
    yet visited comes next.  Every seed yields a permutation of the
    entries and every permutation is yielded by some seed. *)
Fixpoint shuffle {A} (seed : list nat) (l : list A) : list A :=
  match seed with
  | [] => l
  | n :: seed' =>
      let i := (n `mod` length l)%nat in
      match l !! i with
      | Some x => x :: shuffle seed' (delete i l)
      | None => l
      end
  end.

(** [for k, v := range m], visiting the entries in the order [seed] picks. *)
Definition range {V} (seed : list nat) (m : gmap string V) : list (string * V) :=
  shuffle seed (map_to_list m).

(** [len(s)] of a string: its number of bytes. *)
Definition strlen (s : string) : Z := Z.of_nat (String.length s).

(** [len(m)] of a map, as a Go [int]. *)
Definition len_map {V} (m : gmap string V) : Z := Z.of_nat (size m).

(** The line feed of an interpreted string literal. *)
Definition nl : string := String "010"%char EmptyString.

(** Go source text carries double quotes inside its literals; here such a
    literal is written with a back quote in their place. *)
Fixpoint bq (s : string) : string :=
  match s with
  | EmptyString => EmptyString
  | String c s' => String (if Ascii.eqb c "`"%char then "034"%char else c) (bq s')
  end.

End Go.
Import Go.

(* ===================================================================== *)
(** * Package types and history                                            *)
(* ===================================================================== *)

(** [types.Message] *)
Record Message := mkMessage {
  Role : string;
  Content : string;
  Type_ : string
}.

Definition zeroMessage : Message := mkMessage "" "" "".

Module history.

(** [NoOpStrategy.Apply] *)
Definition NoOpStrategy_Apply (messages : list Message) : list Message :=
  let copiedMessages := make zeroMessage (len messages) in
  copy copiedMessages messages.

(** [KeepLastN.Apply], with the receiver's field [N] as first argument. *)
Definition KeepLastN_Apply (N : Z) (messages : list Message) : list Message :=
  if (N <=? 0) || (N >=? len messages) then
    let copiedMessages := make zeroMessage (len messages) in
    copy copiedMessages messages
  else
    let start := len messages - N in
    let truncated := slice_from messages start in
    let copiedMessages := make zeroMessage (len truncated) in
    copy copiedMessages truncated.

(** The [history.Strategy] interface: the two implementations. *)
Inductive Strategy :=
| NoOpStrategy
| KeepLastN (N : Z).

Definition Apply (s : Strategy) (messages : list Message) : list Message :=
  match s with
  | NoOpStrategy => NoOpStrategy_Apply messages
  | KeepLastN N => KeepLastN_Apply N messages
  end.

End history.

(* ===================================================================== *)
(** * Package strings and fmt                                              *)
(* ===================================================================== *)

Module strings.

(** Scan for [substr] from offset [i]; [-1] when absent. *)
Fixpoint Index_from (s substr : string) (i : Z) : Z :=
  if String.prefix substr s then i
  else match s with
       | EmptyString => -1
       | String _ s' => Index_from s' substr (i + 1)
       end.

(** [strings.Index(s, substr)]: offset of the first occurrence, or [-1]. *)
Definition Index (s substr : string) : Z := Index_from s substr 0.

(** Scan the whole of [s], remembering the latest match in [found]. *)
Fixpoint LastIndex_from (s substr : string) (i found : Z) : Z :=
  let found' := if String.prefix substr s then i else found in
  match s with
  | EmptyString => found'
  | String _ s' => LastIndex_from s' substr (i + 1) found'
  end.

(** [strings.LastIndex(s, substr)]: offset of the last occurrence, or [-1]. *)
Definition LastIndex (s substr : string) : Z := LastIndex_from s substr 0 (-1).

(** [strings.Contains(s, substr)] *)
Definition Contains (s substr : string) : bool := Index s substr >=? 0.

(** [strings.Join(elems, sep)] *)
Fixpoint Join (elems : list string) (sep : string) : string :=
  match elems with
  | [] => ""
  | [e] => e
  | e :: rest => e ++ sep ++ Join rest sep
  end.

(** [s[lo:hi]] for [0 <= lo <= hi <= len(s)]. *)
Definition slice (s : string) (lo hi : Z) : string :=
  String.substring (Z.to_nat lo) (Z.to_nat (hi - lo)) s.

End strings.

Module fmt.

(** The verb [%d] applied to an [int]. *)
Definition d (n : Z) : string := pretty n.

End fmt.

(* ===================================================================== *)
(** * Values of type [interface{}] produced by encoding/json               *)
(* ===================================================================== *)

(** What [encoding/json] stores into an [interface{}]: [nil], [bool],
  [float64] (kept here as the literal that was read), [string],
  [[]interface{}] and [map[string]interface{}]. *)
Inductive jsonValue :=
| JNull
| JBool (b : bool)
| JNumber (lit : string)
| JString (s : string)
| JArray (elems : list jsonValue)
| JObject (fields : gmap string jsonValue).

(** [m[key]] on a [map[string]interface{}]: the zero value [nil] when the
  key is absent (also on a nil map). *)
Definition index_any (m : gmap string jsonValue) (key : string) : jsonValue :=
  default JNull (m !! key).

(** [s, ok := v.(string)] *)
Definition assert_string (v : jsonValue) : string * bool :=
  match v with
  | JString s => (s, true)
  | _ => ("", false)
  end.

(** [b, ok := v.(bool)] *)
Definition assert_bool (v : jsonValue) : bool * bool :=
  match v with
  | JBool b => (b, true)
  | _ => (false, false)
  end.

(** [l, ok := v.([]interface{})] *)
Definition assert_slice (v : jsonValue) : list jsonValue * bool :=
  match v with
  | JArray l => (l, true)
  | _ => ([], false)
  end.

(** [agent.LLMResponseAction] *)
Record LLMResponseAction := mkAction {
  Action : string;
  ActionInput : gmap string jsonValue;
  Thought : string;
  Status : string
}.

(** The library calls whose results the code consumes without looking
  inside: [json.Unmarshal] into an [LLMResponseAction], [json.Indent]
  with prefix [""] and indent ["  "], and the [%v] rendering of a
  [map[string]interface{}]. *)
Class Externals := {
  json_Unmarshal : string -> result LLMResponseAction;
  json_Indent : string -> result string;
  fmt_v : gmap string jsonValue -> string
}.

(* ===================================================================== *)
(** * Package tools: the tool capability                                   *)
(* ===================================================================== *)

Module tools.

(** The static part of the [Tool] interface; [Execute] acts on the
    outside world and is answered by it (see [agent.World]). *)
Record Tool := mkTool {
  Name : string;
  Description : string;
  Parameters : string
}.

(** [FormatForPrompt] *)
Definition FormatForPrompt `{Externals} (t : Tool) : result string :=
  match json_Indent (Parameters t) with
  | Err e =>
      Err ("failed to indent parameters JSON for tool " ++ Name t ++ ": " ++ e)
  | Ok indentedParams =>
      Ok ("Tool Name: " ++ Name t ++ nl ++ "Description: " ++ Description t ++ nl
          ++ "Parameters Schema: " ++ indentedParams)
  end.

End tools.

(* ===================================================================== *)
(** * Package llmclient: the message sent to the model                     *)
(* ===================================================================== *)

Module llmclient.

(** [llmclient.Message] *)
Record Message := mkMessage {
  Role : string;
  Content : string
}.

End llmclient.

(* ===================================================================== *)
(** * Package agent: the action codec                                      *)
(* ===================================================================== *)

Module agent.

Import history.

(** The JSON schema shown to the model (the raw string literal of
    [buildSystemPrompt]). *)
Definition formatSection : string := Eval vm_compute in
  bq "{
    `type`: `object`,
    `properties`: {
        `thought`: {
            `type`: `string`,
            `description`: `在这里逐步思考。分析当前情况、目标、可用工具和对话历史。决定是调用工具还是使用 'finish' 动作来提供最终答案。`
        },
        `action`: {
            `type`: `string`,
            `description`: `选择下一个动作。必须是可用的工具名称之一, 'wait', 或 'finish'。`
        },
        `action_input`: {
            `type`: `object`,
            `description`: `工具调用的参数或最终响应。如果 action 是工具名称，请提供该工具所需的参数；如果是 'finish'，请使用 'final_response' 作为此处的键来提供最终响应。`
        },
        `status`: {
            `type`: `string`,
            `enum`: [`continue`, `complete`],
            `description`: `如果选择了工具，则必须是 'continue'；如果选择了 'finish'，则必须是 'complete'。`
        }
    },
    `required`: [`thought`, `action`, `action_input`, `status`]
}".

(** The pieces of the prompt's format string around its three [%s]. *)
Definition promptToolsHeader : string := Eval vm_compute in
  bq "

--- 可用工具 ---
".

Definition promptFormatHeader : string := Eval vm_compute in
  bq "
--- 后台执行与任务调度 ---
- 在工具参数中设置 `run_in_background`: true 来异步运行任务。
- 后台任务的结果将在其完成后自动注入。
- 当你需要等待后台结果才能继续时，请使用 'wait' 动作。

--- 响应格式要求 ---
你必须严格以 JSON 格式响应。不要在 JSON 对象之外添加任何其他文本。输出一个单一的 JSON 对象，该对象必须符合以下 JSON 模式:
".

(** The loop of [buildSystemPrompt] over the tools, in the order in which
    the [range] over [toolMap] visits them. *)
Fixpoint buildToolSection `{Externals} (entries : list (string * tools.Tool))
    (toolSectionBuilder : string) : result string :=
  match entries with
  | [] => Ok toolSectionBuilder
  | (_, tool) :: rest =>
      match tools.FormatForPrompt tool with
      | Err err => Err err
      | Ok formattedTool =>
          buildToolSection rest (toolSectionBuilder ++ formattedTool ++ nl ++ nl)
      end
  end.

(** [JSONOutputLLM.buildSystemPrompt]; [seed] picks the order of the
    [range] over [toolMap]. *)
Definition buildSystemPrompt `{Externals} (seed : list nat) (systemPrompt : string)
    (toolMap : gmap string tools.Tool) : result string :=
  match buildToolSection (range seed toolMap) "" with
  | Err err => Err err
  | Ok toolSection =>
      Ok (systemPrompt ++ promptToolsHeader ++ toolSection
          ++ promptFormatHeader ++ formatSection)
  end.

(** [JSONOutputLLM.parseLLMResponse] *)
Definition parseLLMResponse `{Externals} (responseText : string)
    : result LLMResponseAction :=
  let start := strings.Index responseText "{" in
  let end_ := strings.LastIndex responseText "}" in
  if (start =? -1) || (end_ =? -1) || (start >? end_) then
    Err "无法在响应中找到有效的 JSON 对象"
  else
    let jsonStr := strings.slice responseText start (end_ + 1) in
    match json_Unmarshal jsonStr with
    | Err err => Err ("解析 LLM 响应 JSON 失败: " ++ err)
    | Ok parsedResponse => Ok parsedResponse
    end.

(* ------------------------------------------------------------------- *)
(** ** The agent and its background jobs                                 *)
(* ------------------------------------------------------------------- *)

(** [agent.Job]; the channels and the cancellable scope live in the
    outside world (see [World]). *)
Record Job := mkJob {
  ID : string;
  ToolName : string;
  ToolInput : gmap string jsonValue
}.

(** [agent.Agent], without the client handle, the logger and the locks. *)
Record Agent := mkAgent {
  name : string;
  tools : gmap string tools.Tool;
  systemPrompt : string;
  maxIterations : Z;
  historyStrategy : Strategy;
  messages : list Message;
  backgroundJobs : gmap string Job
}.

(** [agent.AgentOption] *)
Inductive AgentOption :=
| WithTools (agentTools : list tools.Tool)
| WithSystemPrompt (prompt : string)
| WithMaxIterations (n : Z)
| WithHistoryStrategy (strategy : Strategy)
| WithLogger.

Definition set_tools (a : Agent) (t : gmap string tools.Tool) : Agent :=
  mkAgent (name a) t (systemPrompt a) (maxIterations a) (historyStrategy a)
          (messages a) (backgroundJobs a).

Definition set_messages (a : Agent) (ms : list Message) : Agent :=
  mkAgent (name a) (tools a) (systemPrompt a) (maxIterations a) (historyStrategy a)
          ms (backgroundJobs a).

Definition set_backgroundJobs (a : Agent) (js : gmap string Job) : Agent :=
  mkAgent (name a) (tools a) (systemPrompt a) (maxIterations a) (historyStrategy a)
          (messages a) js.

(** Running one option on the agent under construction. *)
Definition applyOption (a : Agent) (opt : AgentOption) : Agent :=
  match opt with
  | WithTools agentTools =>
      set_tools a (foldl (fun m t => <[tools.Name t := t]> m) ∅ agentTools)
  | WithSystemPrompt prompt =>
      mkAgent (name a) (tools a) prompt (maxIterations a) (historyStrategy a)
              (messages a) (backgroundJobs a)
  | WithMaxIterations n =>
      mkAgent (name a) (tools a) (systemPrompt a) n (historyStrategy a)
              (messages a) (backgroundJobs a)
  | WithHistoryStrategy strategy =>
      mkAgent (name a) (tools a) (systemPrompt a) (maxIterations a) strategy
              (messages a) (backgroundJobs a)
  | WithLogger => a
  end.

(** [NewAgent] *)
Definition NewAgent (name : string) (opts : list AgentOption) : Agent :=
  let a := {| name := name;
              tools := ∅;
              systemPrompt := "你是一个有用的 AI 助手。";
              maxIterations := 25;
              historyStrategy := NoOpStrategy;
              messages := [];
              backgroundJobs := ∅ |} in
  foldl applyOption a opts.

(** [Agent.addMessage] *)
Definition addMessage (a : Agent) (role content msgType : string) : Agent :=
  set_messages a (messages a ++ [mkMessage role content msgType]).

(** [Agent.getToolNames]; [seed] orders the [range] over [a.tools]. *)
Definition getToolNames (seed : list nat) (a : Agent) : list string :=
  foldl (fun (names : list string) entry => (names ++ [entry.1])%list) []
        (range seed (tools a)).

(* ------------------------------------------------------------------- *)
(** ** The outside world during one pass of the loop                     *)
(* ------------------------------------------------------------------- *)

(** What the [select] of [checkAndInjectBackgroundJobs] finds on a job. *)
Inductive SelectOutcome :=
| RecvResult (result : string)      (* [case result := <-job.ResultChan] *)
| RecvErr (err : string)            (* [case err := <-job.ErrChan], rendered by [%v] *)
| SelectDefault.                    (* neither channel is ready *)

(** What the [select] of [executeTool] finds. *)
Inductive ExecOutcome :=
| ToolReturned (res : result string)   (* [tool.Execute] came back in time *)
| ToolCtxDone (ctxErr : string).       (* [<-toolCtx.Done()] fired first *)

(** The answers of the outside world during one pass of the loop of
    [Run]: the model, the tools, the job channels, the identifier
    generator and the map iteration orders. *)
Record World := mkWorld {
  w_jobsSeed : list nat;
  w_select : Job -> SelectOutcome;
  w_Invoke : list llmclient.Message -> result string;
  w_Execute : tools.Tool -> gmap string jsonValue -> ExecOutcome;
  w_uuid : string;
  w_toolsSeed : list nat
}.

(** Calls out of the loop, recorded in the order they are made. *)
Inductive Event :=
| EvInvoke (llmMsgs : list llmclient.Message)
| EvExecute (toolName : string) (args : gmap string jsonValue)
| EvGoExecute (jobID toolName : string) (args : gmap string jsonValue)
| EvSleep.

(** The agent together with the local variables of [Run] and the record
    of the calls made so far. *)
Record Frame := mkFrame {
  self : Agent;
  isWaitingForJobs : bool;
  iterationCount : Z;
  calls : list Event
}.

Definition set_self (fr : Frame) (a : Agent) : Frame :=
  mkFrame a (isWaitingForJobs fr) (iterationCount fr) (calls fr).

Definition set_waiting (fr : Frame) (b : bool) : Frame :=
  mkFrame (self fr) b (iterationCount fr) (calls fr).

Definition record (fr : Frame) (e : Event) : Frame :=
  mkFrame (self fr) (isWaitingForJobs fr) (iterationCount fr) (calls fr ++ [e]).

(** Which [return] of [Run] was taken. *)
Inductive ReturnSite :=
| PromptFailed       (* [buildSystemPrompt] failed *)
| InvokeFailed       (* the model call failed *)
| Completed          (* the completion branch *)
| Exhausted.         (* after the loop *)

(** The effect of one pass of the loop body. *)
Inductive Step :=
| Continue (fr : Frame)
| Return (site : ReturnSite) (fr : Frame) (res : string) (err : option string).

(** [Agent.executeTool] *)
Definition executeTool (w : World) (tool : tools.Tool)
    (args : gmap string jsonValue) : result string :=
  match w_Execute w tool args with
  | ToolReturned (Ok res) => Ok res
  | ToolReturned (Err err) => Err err
  | ToolCtxDone ctxErr => Err ("工具执行超时: " ++ ctxErr)
  end.

(** [Agent.startBackgroundTask] *)
Definition startBackgroundTask `{Externals} (w : World) (fr : Frame)
    (toolName : string) (args : gmap string jsonValue) : Frame :=
  let jobID := w_uuid w in
  let job := {| ID := jobID; ToolName := toolName; ToolInput := args |} in
  let a := set_backgroundJobs (self fr) (<[jobID := job]> (backgroundJobs (self fr))) in
  let fr := record (set_self fr a) (EvGoExecute jobID toolName args) in
  let startMsg := "后台任务已启动。任务名称: '" ++ toolName ++ "', 任务ID: '" ++ jobID
                  ++ "'。你可以继续执行其他操作，稍后会自动收到结果。" in
  set_self fr (addMessage (self fr) "user" startMsg "tool_result").

(** One turn of the [range] in [checkAndInjectBackgroundJobs]. *)
Definition injectJob `{Externals} (w : World) (acc : Agent * bool)
    (entry : string * Job) : Agent * bool :=
  let '(a, injectedResult) := acc in
  let '(jobID, job) := entry in
  match w_select w job with
  | RecvResult result =>
      let msg := "后台任务 '" ++ ToolName job ++ "' (" ++ ID job ++ ") 已完成。" ++ nl
                 ++ "参数: " ++ fmt_v (ToolInput job) ++ nl ++ "结果:" ++ nl ++ result in
      let a := addMessage a "user" msg "background_tool_result" in
      (set_backgroundJobs a (delete jobID (backgroundJobs a)), true)
  | RecvErr err =>
      let msg := "后台任务 '" ++ ToolName job ++ "' (" ++ ID job ++ ") 失败。" ++ nl
                 ++ "参数: " ++ fmt_v (ToolInput job) ++ nl ++ "错误: " ++ err in
      let a := addMessage a "user" msg "background_tool_error" in
      (set_backgroundJobs a (delete jobID (backgroundJobs a)), true)
  | SelectDefault => (a, injectedResult)
  end.

(** [Agent.checkAndInjectBackgroundJobs] *)
Definition checkAndInjectBackgroundJobs `{Externals} (w : World) (a : Agent)
    : Agent * bool :=
  foldl (injectJob w) (a, false) (range (w_jobsSeed w) (backgroundJobs a)).

(* ------------------------------------------------------------------- *)
(** ** [Agent.Run]                                                       *)
(* ------------------------------------------------------------------- *)

(** The note appended when completion is asked for while jobs are still
    tracked, and the text returned when the iteration budget is spent. *)
Definition completionDeferredNote : string :=
  "系统提示: 你的完成请求已收到，但后台任务仍在运行。系统将等待它们完成后再生成最终摘要。要明确等待而不结束，请使用 'wait' 动作。".

Definition fallbackAnswer : string := "已达到最大迭代次数，但未找到答案。".

(** The test that opens the completion branch. *)
Definition signalsCompletion (action : LLMResponseAction) : bool :=
  (Status action =? "complete")%string
  || ((Action action =? "finish")%string && negb (Status action =? "continue")%string).

(** [finalResponse, _ := action.ActionInput["final_response"].(string)] *)
Definition finalResponseOf (action : LLMResponseAction) : string :=
  (assert_string (index_any (ActionInput action) "final_response")).1.

(** The part of the loop body that acts on a parsed action. *)
Definition dispatch `{Externals} (w : World) (fr : Frame)
    (action : LLMResponseAction) : Step :=
  let a := self fr in
  if signalsCompletion action then
    if len_map (backgroundJobs a) >? 0 then
      let a := addMessage a "user" completionDeferredNote "system_note" in
      Continue (set_waiting (set_self fr a) true)
    else
      let finalResponse := finalResponseOf action in
      Return Completed fr finalResponse None
  else if (Action action =? "wait")%string then
    if len_map (backgroundJobs a) >? 0 then
      Continue (set_waiting fr true)
    else
      let a := addMessage a "user" "警告: 你使用了 'wait' 动作，但没有正在运行的后台任务。请选择另一个动作或使用 'finish' 完成任务。" "system_warning" in
      Continue (set_self fr a)
  else
    match tools a !! Action action with
    | Some tool =>
        let runInBackground := (assert_bool (index_any (ActionInput action) "run_in_background")).1 in
        if runInBackground then
          Continue (startBackgroundTask w fr (Action action) (ActionInput action))
        else
          let fr := record fr (EvExecute (Action action) (ActionInput action)) in
          let toolResult :=
            match executeTool w tool (ActionInput action) with
            | Err err => "工具 '" ++ Action action ++ "' 执行失败: " ++ err
            | Ok toolResult => toolResult
            end in
          Continue (set_self fr (addMessage (self fr) "user" toolResult "tool_result"))
    | None =>
        let errorMsg := "错误: 工具 '" ++ Action action ++ "' 不存在。可用工具: "
                        ++ strings.Join (getToolNames (w_toolsSeed w) a) ", " in
        Continue (set_self fr (addMessage a "user" errorMsg "tool_error"))
    end.

(** The messages handed to the model: the strategy's view of the log. *)
Definition llmMsgsOf (a : Agent) : list llmclient.Message :=
  let managedHistory := Apply (historyStrategy a) (messages a) in
  map (fun m => llmclient.mkMessage (Role m) (Content m)) managedHistory.

(** The part of the loop body from [iterationCount++] on. *)
Definition think `{Externals} (w : World) (fr : Frame) : Step :=
  let fr := mkFrame (self fr) (isWaitingForJobs fr) (iterationCount fr + 1) (calls fr) in
  let llmMsgs := llmMsgsOf (self fr) in
  let fr := record fr (EvInvoke llmMsgs) in
  match w_Invoke w llmMsgs with
  | Err err =>
      Return InvokeFailed fr ""
        (Some ("iteration " ++ fmt.d (iterationCount fr)
               ++ ": failed to get LLM response: " ++ err))
  | Ok content =>
      let fr := set_self fr (addMessage (self fr) "assistant" content "llm_output") in
      match parseLLMResponse content with
      | Err err =>
          let errorMsg := "解析 LLM 响应失败: " ++ err ++ ". 将此错误告知 LLM 并重试。" in
          Continue (set_self fr (addMessage (self fr) "user" errorMsg "parse_error"))
      | Ok action => dispatch w fr action
      end
  end.

(** One pass of the body of the [for] loop. *)
Definition pass `{Externals} (w : World) (fr : Frame) : Step :=
  let '(a, injectedResult) := checkAndInjectBackgroundJobs w (self fr) in
  let fr := set_self fr a in
  let fr := if injectedResult then set_waiting fr false else fr in
  if isWaitingForJobs fr then
    if len_map (backgroundJobs (self fr)) >? 0 then
      Continue (record fr EvSleep)
    else
      let a := addMessage (self fr) "user" "所有后台任务已完成，请总结结果。" "system_note" in
      think w (set_waiting (set_self fr a) false)
  else think w fr.

(** The [for] loop, one world per pass; [None] when the worlds run out
    while the loop is still going. *)
Fixpoint loop `{Externals} (ws : list World) (fr : Frame)
    : option (ReturnSite * Frame * string * option string) :=
  if iterationCount fr <? maxIterations (self fr) then
    match ws with
    | [] => None
    | w :: ws' =>
        match pass w fr with
        | Continue fr' => loop ws' fr'
        | Return site fr' res err => Some (site, fr', res, err)
        end
    end
  else Some (Exhausted, fr, fallbackAnswer, None).

(** The frame in which the loop starts: the two opening messages are in
    the log, nothing has been counted or called yet. *)
Definition start (a : Agent) (fullSystemPrompt userInput : string) : Frame :=
  let a := addMessage a "system" fullSystemPrompt "system_prompt" in
  let a := addMessage a "user" userInput "user_input" in
  mkFrame a false 0 [].

(** [Agent.Run]; [seed] orders the tools in the system prompt. *)
Definition Run `{Externals} (seed : list nat) (ws : list World) (a : Agent)
    (userInput : string) : option (ReturnSite * Frame * string * option string) :=
  match buildSystemPrompt seed (systemPrompt a) (tools a) with
  | Err err =>
      Some (PromptFailed, mkFrame a false 0 [], "",
            Some ("failed to build system prompt: " ++ err))
  | Ok fullSystemPrompt => loop ws (start a fullSystemPrompt userInput)
  end.

(** The frames in which the passes of the loop begin, in order. *)
Fixpoint passes `{Externals} (ws : list World) (fr : Frame) : list Frame :=
  if iterationCount fr <? maxIterations (self fr) then
    match ws with
    | [] => []
    | w :: ws' =>
        fr :: match pass w fr with
              | Continue fr' => passes ws' fr'
              | Return _ _ _ _ => []
              end
    end
  else [].

(** The model answers every prompt, and never with a completion signal. *)
Definition respondsWithoutCompleting `{Externals} (w : World) : Prop :=
  forall llmMsgs, exists content,
    w_Invoke w llmMsgs = Ok content
    /\ forall action, parseLLMResponse content = Ok action ->
                     signalsCompletion action = false.

(** The number of calls to the model among recorded calls. *)
Definition isInvoke (e : Event) : bool :=
  match e with
  | EvInvoke _ => true
  | _ => false
  end.

Definition invocations (calls : list Event) : nat :=
  length (filter (fun e => isInvoke e = true) calls).

(** The number of tools started, in the loop or in a goroutine. *)
Definition isExecute (e : Event) : bool :=
  match e with
  | EvExecute _ _ | EvGoExecute _ _ _ => true
  | _ => false
  end.

Definition executions (calls : list Event) : nat :=
  length (filter (fun e => isExecute e = true) calls).

End agent.

(* ===================================================================== *)
(** * A model of encoding/json, for running the codec on concrete text     *)
(* ===================================================================== *)

(** The theorems about the codec and the loop hold for every decoder (they
  are stated over [Externals]).  To run them on concrete model output the
  decoder below follows [json.Unmarshal] into an [LLMResponseAction]: the
  grammar of the scanner, the unquoting of string literals (escapes,
  surrogate pairs, replacement of ill-formed UTF-8), the nesting limit,
  the case-folding match of keys against field names and the rules for
  storing into [string] and [map[string]interface{}] fields.  Two things
  are not reproduced: the error texts, and the conversion of number
  literals to [float64] (a literal is kept as written, where Go rejects
  one that overflows). *)
Module json.

Definition code (c : ascii) : N := N_of_ascii c.
Definition byte (n : N) : ascii := ascii_of_N n.
Definition one (n : N) : string := String (byte n) EmptyString.

Definition isSpace (c : ascii) : bool :=
  let n := code c in
  ((n =? 32) || (n =? 9) || (n =? 13) || (n =? 10))%N.

Fixpoint skipSpace (s : string) : string :=
  match s with
  | String c s' => if isSpace c then skipSpace s' else s
  | EmptyString => EmptyString
  end.

Definition isDigit (c : ascii) : bool :=
  let n := code c in ((48 <=? n) && (n <=? 57))%N.

Definition hexVal (c : ascii) : option N :=
  let n := code c in
  if ((48 <=? n) && (n <=? 57))%N then Some (n - 48)%N
  else if ((97 <=? n) && (n <=? 102))%N then Some (n - 87)%N
  else if ((65 <=? n) && (n <=? 70))%N then Some (n - 55)%N
  else None.

(** [getu4]: the code unit of a leading [\uXXXX], if there is one. *)
Definition getu4 (s : string) : option N :=
  match s with
  | String b (String u (String h1 (String h2 (String h3 (String h4 _))))) =>
      if ((code b =? 92) && (code u =? 117))%N then
        match hexVal h1, hexVal h2, hexVal h3, hexVal h4 with
        | Some a, Some b, Some c, Some d => Some (((a * 16 + b) * 16 + c) * 16 + d)%N
        | _, _, _, _ => None
        end
      else None
  | _ => None
  end.

(** [utf8.EncodeRune] on a scalar value. *)
Definition encodeRune (r : N) : string :=
  (if r <? 128 then one r
   else if r <? 2048 then one (192 + r / 64) ++ one (128 + r mod 64)
   else if r <? 65536 then
     one (224 + r / 4096) ++ one (128 + (r / 64) mod 64) ++ one (128 + r mod 64)
   else
     one (240 + r / 262144) ++ one (128 + (r / 4096) mod 64)
     ++ one (128 + (r / 64) mod 64) ++ one (128 + r mod 64))%N.

Definition replacementChar : string := Eval vm_compute in encodeRune 65533.

Definition inRange (lo hi : N) (c : ascii) : bool :=
  ((lo <=? code c) && (code c <=? hi))%N.

(** [utf8.DecodeRune], as far as the decoder needs it: the width of the
    well-formed sequence that starts [s], or [0] if there is none. *)
Definition runeWidth (s : string) : nat :=
  match s with
  | String c0 rest =>
      let n := code c0 in
      if (n <? 128)%N then 1%nat
      else match rest with
      | String c1 rest1 =>
          if inRange 194 223 c0 then (if inRange 128 191 c1 then 2 else 0)%nat
          else match rest1 with
          | String c2 rest2 =>
              let second3 :=
                if (n =? 224)%N then inRange 160 191 c1
                else if (n =? 237)%N then inRange 128 159 c1
                else inRange 128 191 c1 in
              if inRange 224 239 c0 then
                (if second3 && inRange 128 191 c2 then 3 else 0)%nat
              else match rest2 with
              | String c3 _ =>
                  let second4 :=
                    if (n =? 240)%N then inRange 144 191 c1
                    else if (n =? 244)%N then inRange 128 143 c1
                    else inRange 128 191 c1 in
                  if inRange 240 244 c0 && second4 && inRange 128 191 c2
                     && inRange 128 191 c3
                  then 4%nat else 0%nat
              | EmptyString => 0%nat
              end
          | EmptyString => 0%nat
          end
      | EmptyString => 0%nat
      end
  | EmptyString => 0%nat
  end.

Fixpoint dropS (n : nat) (s : string) : string :=
  match n, s with
  | S n', String _ s' => dropS n' s'
  | _, _ => s
  end.

Fixpoint takeS (n : nat) (s : string) : string :=
  match n, s with
  | S n', String c s' => String c (takeS n' s')
  | _, _ => EmptyString
  end.

(** The byte a one-letter escape stands for. *)
Definition escapeByte (e : ascii) : option N :=
  let m := code e in
  (if (m =? 34) || (m =? 92) || (m =? 47) then Some m
   else if m =? 98 then Some 8
   else if m =? 102 then Some 12
   else if m =? 110 then Some 10
   else if m =? 114 then Some 13
   else if m =? 116 then Some 9
   else None)%N.

(** The body of a string literal, from just after its opening quote:
    the decoded text and what follows the closing quote. *)
Fixpoint unquote (fuel : nat) (s acc : string) : option (string * string) :=
  match fuel with
  | O => None
  | S fuel =>
      match s with
      | EmptyString => None
      | String c rest =>
          let n := code c in
          if (n =? 34)%N then Some (acc, rest)
          else if (n =? 92)%N then
            match rest with
            | EmptyString => None
            | String e rest' =>
                if (code e =? 117)%N then
                  match getu4 s with
                  | None => None
                  | Some rr =>
                      let after := dropS 6 s in
                      if ((55296 <=? rr) && (rr <? 57344))%N then
                        match getu4 after with
                        | Some rr1 =>
                            if ((rr <? 56320) && (56320 <=? rr1) && (rr1 <? 57344))%N then
                              unquote fuel (dropS 6 after)
                                (acc ++ encodeRune ((rr - 55296) * 1024 + (rr1 - 56320) + 65536)%N)
                            else unquote fuel after (acc ++ replacementChar)
                        | None => unquote fuel after (acc ++ replacementChar)
                        end
                      else unquote fuel after (acc ++ encodeRune rr)
                  end
                else
                  match escapeByte e with
                  | Some b => unquote fuel rest' (acc ++ one b)
                  | None => None
                  end
            end
          else if (n <? 32)%N then None
          else if (n <? 128)%N then unquote fuel rest (acc ++ String c EmptyString)
          else
            match runeWidth s with
            | O => unquote fuel rest (acc ++ replacementChar)
            | w => unquote fuel (dropS w s) (acc ++ takeS w s)
            end
      end
  end.

Fixpoint spanDigits (s : string) : string * string :=
  match s with
  | String c s' =>
      if isDigit c then let '(ds, r) := spanDigits s' in (String c ds, r)
      else (EmptyString, s)
  | EmptyString => (EmptyString, EmptyString)
  end.

(** A number literal at the head of [s]: the literal and the rest. *)
Definition scanNumber (s : string) : option (string * string) :=
  let '(sign, s1) :=
    match s with
    | String c r => if (code c =? 45)%N then ("-", r) else ("", s)
    | EmptyString => ("", s)
    end in
  let intPart :=
    match s1 with
    | String c r =>
        if (code c =? 48)%N then Some ("0", r)
        else if isDigit c then Some (spanDigits s1)
        else None
    | EmptyString => None
    end in
  match intPart with
  | None => None
  | Some (ip, s2) =>
      let fracPart :=
        match s2 with
        | String c r =>
            if (code c =? 46)%N then
              let '(ds, r') := spanDigits r in
              if (String.length ds =? 0)%nat then None else Some ("." ++ ds, r')
            else Some ("", s2)
        | EmptyString => Some ("", s2)
        end in
      match fracPart with
      | None => None
      | Some (fp, s3) =>
          match s3 with
          | String c r =>
              if ((code c =? 101) || (code c =? 69))%N then
                let '(esign, r1) :=
                  match r with
                  | String c' r' =>
                      if ((code c' =? 43) || (code c' =? 45))%N
                      then (String c' EmptyString, r') else ("", r)
                  | EmptyString => ("", r)
                  end in
                let '(ds, r2) := spanDigits r1 in
                if (String.length ds =? 0)%nat then None
                else Some (sign ++ ip ++ fp ++ String c EmptyString ++ esign ++ ds, r2)
              else Some (sign ++ ip ++ fp, s3)
          | EmptyString => Some (sign ++ ip ++ fp, s3)
          end
      end
  end.

Definition maxNestingDepth : N := 10000.

(** [m[key] = value] for every member, in the order read. *)
Definition toMap (members : list (string * jsonValue)) : gmap string jsonValue :=
  foldl (fun m kv => <[kv.1 := kv.2]> m) ∅ members.

Definition startsWith (p s : string) : bool := String.prefix p s.

(** One JSON value at the head of [s] (after white space), decoded as into
    an [interface{}]; [parseMembers] and [parseElements] read the inside
    of an object and of an array from the first member or element on. *)
Fixpoint parseValue (fuel : nat) (depth : N) (s : string)
    : option (jsonValue * string) :=
  match fuel with
  | O => None
  | S fuel =>
      match skipSpace s with
      | EmptyString => None
      | String c rest as s0 =>
          let n := code c in
          if (n =? 123)%N then
            if (maxNestingDepth <? depth + 1)%N then None
            else
              match skipSpace rest with
              | String c' r' =>
                  if (code c' =? 125)%N then Some (JObject ∅, r')
                  else
                    match parseMembers fuel (depth + 1)%N rest [] with
                    | Some (members, r) => Some (JObject (toMap members), r)
                    | None => None
                    end
              | EmptyString => None
              end
          else if (n =? 91)%N then
            if (maxNestingDepth <? depth + 1)%N then None
            else
              match skipSpace rest with
              | String c' r' =>
                  if (code c' =? 93)%N then Some (JArray [], r')
                  else parseElements fuel (depth + 1)%N rest []
              | EmptyString => None
              end
          else if (n =? 34)%N then
            match unquote (S (String.length rest)) rest "" with
            | Some (str, r) => Some (JString str, r)
            | None => None
            end
          else if startsWith "true" s0 then Some (JBool true, dropS 4 s0)
          else if startsWith "false" s0 then Some (JBool false, dropS 5 s0)
          else if startsWith "null" s0 then Some (JNull, dropS 4 s0)
          else
            match scanNumber s0 with
            | Some (lit, r) => Some (JNumber lit, r)
            | None => None
            end
      end
  end
  with parseMembers (fuel : nat) (depth : N) (s : string)
    (acc : list (string * jsonValue)) : option (list (string * jsonValue) * string) :=
  match fuel with
  | O => None
  | S fuel =>
      match skipSpace s with
      | EmptyString => None
      | String c r =>
          if (code c =? 34)%N then
            match unquote (S (String.length r)) r "" with
            | None => None
            | Some (key, r1) =>
                match skipSpace r1 with
                | EmptyString => None
                | String c1 r2 =>
                    if (code c1 =? 58)%N then
                      match parseValue fuel depth r2 with
                      | None => None
                      | Some (v, r3) =>
                          match skipSpace r3 with
                          | EmptyString => None
                          | String c3 r4 =>
                              if (code c3 =? 44)%N then
                                parseMembers fuel depth r4 (acc ++ [(key, v)])%list
                              else if (code c3 =? 125)%N then
                                Some ((acc ++ [(key, v)])%list, r4)
                              else None
                          end
                      end
                    else None
                end
            end
          else None
      end
  end
  with parseElements (fuel : nat) (depth : N) (s : string)
    (acc : list jsonValue) : option (jsonValue * string) :=
  match fuel with
  | O => None
  | S fuel =>
      match parseValue fuel depth s with
      | None => None
      | Some (v, r) =>
          match skipSpace r with
          | EmptyString => None
          | String c r' =>
              if (code c =? 44)%N then parseElements fuel depth r' (acc ++ [v])%list
              else if (code c =? 93)%N then Some (JArray (acc ++ [v])%list, r')
              else None
          end
      end
  end.

(** [foldName]: the case folding under which keys match field names.
    ASCII letters fold to upper case; the long s (U+017F) and the Kelvin
    sign (U+212A) fold to [S] and [K]; no other rune folds to ASCII. *)
Fixpoint foldName (s : string) : string :=
  match s with
  | EmptyString => EmptyString
  | String c rest =>
      let n := code c in
      if ((97 <=? n) && (n <=? 122))%N then String (byte (n - 32)) (foldName rest)
      else
        match rest with
        | String c1 rest1 =>
            if ((n =? 197) && (code c1 =? 191))%N then String (byte 83) (foldName rest1)
            else
              match rest1 with
              | String c2 rest2 =>
                  if ((n =? 226) && (code c1 =? 132) && (code c2 =? 170))%N
                  then String (byte 75) (foldName rest2)
                  else String c (foldName rest)
              | EmptyString => String c (foldName rest)
              end
        | EmptyString => String c (foldName rest)
        end
  end.

Inductive field := FAction | FActionInput | FThought | FStatus.

(** The field of [LLMResponseAction] that a key of the object selects. *)
Definition fieldOf (key : string) : option field :=
  let k := foldName key in
  if (k =? foldName "action")%string then Some FAction
  else if (k =? foldName "action_input")%string then Some FActionInput
  else if (k =? foldName "thought")%string then Some FThought
  else if (k =? foldName "status")%string then Some FStatus
  else None.

Definition typeError : string := "json: cannot unmarshal value into Go struct field".

Definition saveError (saved : option string) (e : string) : option string :=
  match saved with
  | Some _ => saved
  | None => Some e
  end.

(** Storing one member of the top-level object into the struct. *)
Definition store (st : LLMResponseAction * option string) (kv : string * jsonValue)
    : LLMResponseAction * option string :=
  let '(r, saved) := st in
  let '(key, v) := kv in
  match fieldOf key, v with
  | None, _ => st
  | Some FActionInput, JObject m =>
      (mkAction (Action r) (m ∪ ActionInput r) (Thought r) (Status r), saved)
  | Some FActionInput, JNull =>
      (mkAction (Action r) ∅ (Thought r) (Status r), saved)
  | Some FActionInput, _ => (r, saveError saved typeError)
  | Some _, JNull => st
  | Some FAction, JString s => (mkAction s (ActionInput r) (Thought r) (Status r), saved)
  | Some FThought, JString s => (mkAction (Action r) (ActionInput r) s (Status r), saved)
  | Some FStatus, JString s => (mkAction (Action r) (ActionInput r) (Thought r) s, saved)
  | Some _, _ => (r, saveError saved typeError)
  end.

(** [json.Unmarshal(data, &parsedResponse)] on a zero [parsedResponse]. *)
Definition Unmarshal (data : string) : result LLMResponseAction :=
  let fuel := (2 * String.length data + 10)%nat in
  let zero := mkAction "" ∅ "" "" in
  match skipSpace data with
  | String c rest =>
      if (code c =? 123)%N then
        match skipSpace rest with
        | String c' r' =>
            let parsed :=
              if (code c' =? 125)%N then Some ([], r')
              else parseMembers fuel 1 rest [] in
            match parsed with
            | Some (members, r) =>
                match skipSpace r with
                | EmptyString =>
                    match foldl store (zero, None) members with
                    | (res, None) => Ok res
                    | (_, Some e) => Err e
                    end
                | String _ _ => Err "json: invalid character after top-level value"
                end
            | None => Err "json: syntax error"
            end
        | EmptyString => Err "json: unexpected end of JSON input"
        end
      else
        match parseValue fuel 0 data with
        | Some (v, r) =>
            match skipSpace r, v with
            | EmptyString, JNull => Ok zero
            | EmptyString, _ => Err typeError
            | String _ _, _ => Err "json: invalid character after top-level value"
            end
        | None => Err "json: syntax error"
        end
  | EmptyString => Err "json: unexpected end of JSON input"
  end.

End json.

(* ===================================================================== *)
(** * Package assistants: the parallel task delegator                      *)
(* ===================================================================== *)

Module assistants.

(** What the child goroutines meet: the outcome of copying the base
    context for task [index], of building the child agent of a given
    name, of running that agent on a task description, and the order in
    which the goroutines come to write their slots. *)
Record World := mkWorld {
  w_Copy : nat -> result unit;
  w_BuildAgent : string -> result unit;
  w_Run : string -> string -> result string;
  w_schedule : list nat
}.

(** [ParallelTaskDelegator]: of its fields only the name in
    [subAgentConfig] is read here. *)
Record ParallelTaskDelegator := mkDelegator {
  subAgentConfig_Name : string
}.

(** The two slices shared by the goroutines: [results] and [errs]
    ([None] is the nil error). *)
Definition Slots : Type := list string * list (option string).

(** The body of the goroutine started for task [index]. *)
Definition goroutine (p : ParallelTaskDelegator) (w : World) (slots : Slots)
    (job : nat * string) : Slots :=
  let '(results, errs) := slots in
  let '(index, description) := job in
  match w_Copy w index with
  | Err err =>
      (results,
       <[index := Some ("任务 #" ++ fmt.d (Z.of_nat index) ++ ": 创建上下文失败: " ++ err)]> errs)
  | Ok _ =>
      let parallelName :=
        subAgentConfig_Name p ++ "_task_" ++ fmt.d (Z.of_nat index) in
      match w_BuildAgent w parallelName with
      | Err err =>
          (results,
           <[index := Some ("任务 #" ++ fmt.d (Z.of_nat index) ++ ": 构建 agent 失败: " ++ err)]> errs)
      | Ok _ =>
          match w_Run w parallelName description with
          | Err err =>
              (<[index := "子 agent 执行失败: " ++ err]> results,
               <[index := Some ("任务 #" ++ fmt.d (Z.of_nat index) ++ ": 执行失败: " ++ err)]> errs)
          | Ok result =>
              (<[index := result]> results, <[index := None]> errs)
          end
      end
  end.

(** The launching loop: a task that is not a string gets its slot filled
    at once, every other task gets a goroutine. *)
Fixpoint launch (tasks : list jsonValue) (i : nat) (results : list string)
    : list string * list (nat * string) :=
  match tasks with
  | [] => (results, [])
  | task :: rest =>
      match assert_string task with
      | (taskDesc, true) =>
          let '(results, started) := launch rest (S i) results in
          (results, (i, taskDesc) :: started)
      | (_, false) =>
          launch rest (S i)
            (<[i := "任务 #" ++ fmt.d (Z.of_nat i) ++ " 的输入无效（不是字符串）"]> results)
      end
  end.

(** The loop after [wg.Wait()]: one labeled section per task. *)
Fixpoint aggregate (n i : nat) (results : list string) (errs : list (option string))
    (finalResult : string) (aggregatedErrs : list string) : string * list string :=
  match n with
  | O => (finalResult, aggregatedErrs)
  | S n' =>
      let finalResult :=
        finalResult ++ "--- 任务 #" ++ fmt.d (Z.of_nat i + 1) ++ " 结果 ---" ++ nl in
      match default None (errs !! i) with
      | Some e =>
          let errStr := "错误: " ++ e in
          aggregate n' (S i) results errs (finalResult ++ errStr ++ nl)
                    (aggregatedErrs ++ [errStr])%list
      | None =>
          aggregate n' (S i) results errs
                    (finalResult ++ default "" (results !! i) ++ nl) aggregatedErrs
      end
  end.

(** [ParallelTaskDelegator.Execute].  The goroutines write disjoint slots,
    so they are run here one after the other, in the order the world's
    schedule picks. *)
Definition Execute (p : ParallelTaskDelegator) (w : World)
    (args : gmap string jsonValue) : string * option string :=
  match assert_slice (index_any args "tasks") with
  | (_, false) => ("", Some "无效的参数：'tasks' 必须是一个字符串列表")
  | (tasks, true) =>
      let results := make "" (len tasks) in
      let errs := make (None : option string) (len tasks) in
      let '(results, started) := launch tasks 0 results in
      let '(results, errs) :=
        foldl (goroutine p w) (results, errs) (shuffle (w_schedule w) started) in
      let '(finalResult, aggregatedErrs) :=
        aggregate (length tasks) 0 results errs "" [] in
      if (0 <? length aggregatedErrs)%nat then
        (finalResult, Some (strings.Join aggregatedErrs "; "))
      else (finalResult, None)
  end.

(** What the goroutine of the task at position [index] leaves in its two
    slots: the result text and the error. *)
Definition outcome (p : ParallelTaskDelegator) (w : World) (index : nat)
    (description : string) : string * option string :=
  let '(results, errs) :=
    goroutine p w (replicate (S index) "", replicate (S index) None)
              (index, description) in
  (default "" (results !! index), default None (errs !! index)).

(** The section of the aggregated text for the task at position [index],
    and the entry it adds to the list of errors. *)
Definition sectionOf (p : ParallelTaskDelegator) (w : World) (index : nat)
    (description : string) : string :=
  "--- 任务 #" ++ fmt.d (Z.of_nat index + 1) ++ " 结果 ---" ++ nl
  ++ match outcome p w index description with
     | (_, Some e) => "错误: " ++ e
     | (result, None) => result
     end ++ nl.

Definition failureOf (p : ParallelTaskDelegator) (w : World) (index : nat)
    (description : string) : list string :=
  match outcome p w index description with
  | (_, Some e) => ["错误: " ++ e]
  | (_, None) => []
  end.

(** The sections and the failures of the tasks from position [i] on. *)
Fixpoint sectionsFrom (p : ParallelTaskDelegator) (w : World) (i : nat)
    (descriptions : list string) : string :=
  match descriptions with
  | [] => ""
  | description :: rest => sectionOf p w i description ++ sectionsFrom p w (S i) rest
  end.

Fixpoint failuresFrom (p : ParallelTaskDelegator) (w : World) (i : nat)
    (descriptions : list string) : list string :=
  match descriptions with
  | [] => []
  | description :: rest =>
      (failureOf p w i description ++ failuresFrom p w (S i) rest)%list
  end.

End assistants.

(* ===================================================================== *)
(** * Package tools: the context store                                     *)
(* ===================================================================== *)

Module context.

(** Addresses of the mutable objects of the Go heap. *)
Definition loc : Type := positive.

(** A value held in an [interface{}]: [nil], an immutable scalar, or a
    reference to a mutable object (the backing store of a slice, a map, the
    target of a pointer).  The two kinds of reference differ only for the
    model of gob further down: [VRef] is one it can follow (the dynamic
    type is one it knows), [VOpaque] one it refuses (a channel, a function,
    a value of a type never registered). *)
Inductive Value :=
| VNil
| VBool (b : bool)
| VInt (z : Z)
| VString (s : string)
| VRef (l : loc)
| VOpaque (l : loc).

(** The heap: the cells of every allocated object. *)
Abbreviation Heap := (gmap loc (list Value)).

(** [tools.Context], without its lock. *)
Record Context := mkContext {
  data : gmap string Value;
  shallowCopyKeys : gmap string bool
}.

(** [NewContext] *)
Definition NewContext : Context := mkContext ∅ ∅.

(** [Context.Set] *)
Definition Set_ (c : Context) (key : string) (value : Value) (shallowCopy : bool)
    : Context :=
  mkContext (<[key := value]> (data c))
            (if shallowCopy then <[key := true]> (shallowCopyKeys c)
             else delete key (shallowCopyKeys c)).

(** [Context.Get] *)
Definition Get (c : Context) (key : string) : Value * bool :=
  match data c !! key with
  | Some val => (val, true)
  | None => (VNil, false)
  end.

(** [Context.GetString] *)
Definition GetString (c : Context) (key : string) : string * bool :=
  match Get c key with
  | (_, false) => ("", false)
  | (VString strVal, true) => (strVal, true)
  | (_, true) => ("", false)
  end.

(** [Context.Delete] *)
Definition Delete (c : Context) (key : string) : Context :=
  mkContext (delete key (data c)) (delete key (shallowCopyKeys c)).

(** The two calls into [encoding/gob]: [enc.Encode(&v)], which fills the
    buffer from the value and what it leads to in the heap, and
    [dec.Decode(&copiedVal)], which rebuilds a value from the buffer and
    allocates what it needs. *)
Class Gob := {
  Buffer : Type;
  gob_Encode : Heap -> Value -> result Buffer;
  gob_Decode : Buffer -> Heap -> result (Value * Heap)
}.

(** [deepCopyValue] *)
Definition deepCopyValue `{Gob} (h : Heap) (v : Value) : result (Value * Heap) :=
  match v with
  | VNil => Ok (VNil, h)
  | _ =>
      match gob_Encode h v with
      | Err err => Err ("failed to gob encode value: " ++ err)
      | Ok buf =>
          match gob_Decode buf h with
          | Err err => Err ("failed to gob decode value: " ++ err)
          | Ok (copiedVal, h') => Ok (copiedVal, h')
          end
      end
  end.

(** The outside of [Copy]: the two map iteration orders. *)
Record World := mkWorld {
  w_keysSeed : list nat;
  w_dataSeed : list nat
}.

(** The second loop of [Copy], over the entries of [c.data]. *)
Fixpoint copyEntries `{Gob} (keys : gmap string bool)
    (entries : list (string * Value)) (newData : gmap string Value) (h : Heap)
    : result (gmap string Value * Heap) :=
  match entries with
  | [] => Ok (newData, h)
  | (key, value) :: rest =>
      if default false (keys !! key) then
        copyEntries keys rest (<[key := value]> newData) h
      else
        match deepCopyValue h value with
        | Err err =>
            Err ("failed to deep copy value for key '" ++ key ++ "': " ++ err)
        | Ok (copiedValue, h') =>
            copyEntries keys rest (<[key := copiedValue]> newData) h'
        end
  end.

(** [Context.Copy]: the new context and the heap after the copy. *)
Definition Copy `{Gob} (w : World) (c : Context) (h : Heap) : result (Context * Heap) :=
  let newKeys :=
    foldl (fun (m : gmap string bool) kv => <[kv.1 := kv.2]> m) ∅
          (range (w_keysSeed w) (shallowCopyKeys c)) in
  match copyEntries (shallowCopyKeys c) (range (w_dataSeed w) (data c)) ∅ h with
  | Err err => Err err
  | Ok (newData, h') => Ok (mkContext newData newKeys, h')
  end.

(** The object a value refers to, if it is a reference. *)
Definition target (v : Value) : option loc :=
  match v with
  | VRef l | VOpaque l => Some l
  | _ => None
  end.

(** [reach h v l]: the object at [l] can be reached from [v] by following
    references through the heap [h]. *)
Inductive reach (h : Heap) : Value -> loc -> Prop :=
| reach_here v l :
    target v = Some l -> reach h v l
| reach_cell v l cells v' l' :
    target v = Some l -> h !! l = Some cells -> v' ∈ cells ->
    reach h v' l' -> reach h v l'.

(** What a reader sees through a value, down to a given depth. *)
Inductive Obs :=
| ONil
| OBool (b : bool)
| OInt (z : Z)
| OString (s : string)
| OObject (opaque : bool) (cells : list Obs)
| OBelow
| ODangling.

Fixpoint observe (depth : nat) (h : Heap) (v : Value) : Obs :=
  let object (opaque : bool) (l : loc) :=
    match depth with
    | O => OBelow
    | S depth' =>
        match h !! l with
        | None => ODangling
        | Some cells => OObject opaque (map (observe depth' h) cells)
        end
    end in
  match v with
  | VNil => ONil
  | VBool b => OBool b
  | VInt z => OInt z
  | VString s => OString s
  | VRef l => object false l
  | VOpaque l => object true l
  end.

(** Between a heap [h0] and a later heap [h1]: a value that refers, if to
    anything, to an object allocated in between; and a heap whose objects
    allocated in between hold only such values. *)
Definition newValue (h0 h1 : Heap) (v : Value) : Prop :=
  forall l, target v = Some l -> l ∈ dom h1 /\ l ∉ dom h0.

Definition newHeap (h0 h1 : Heap) : Prop :=
  forall l cells, h1 !! l = Some cells -> l ∉ dom h0 -> Forall (newValue h0 h1) cells.

(** [v] in [h1] is a clone made after [h0]: nothing of [h0] was touched,
    [v] and all it leads to was allocated since, and what a reader sees
    through [v], now and in every later heap, is [view]. *)
Definition clonedFrom (h0 h1 : Heap) (v : Value) (view : nat -> Obs) : Prop :=
  h0 ⊆ h1
  /\ newValue h0 h1 v
  /\ newHeap h0 h1
  /\ forall h2 depth, h1 ⊆ h2 -> observe depth h2 v = view depth.

(** Reading an entry of a store, and overwriting the cells of an object. *)
Definition read (depth : nat) (c : Context) (h : Heap) (key : string) : Obs :=
  observe depth h (Get c key).1.

Definition write (h : Heap) (l : loc) (cells : list Value) : Heap :=
  <[l := cells]> h.

(** No dangling references: every reference held by a value, by the heap
    or by a store leads to an allocated object. *)
Definition closedValue (h : Heap) (v : Value) : Prop :=
  match target v with
  | Some l => is_Some (h !! l)
  | None => True
  end.

Definition closedHeap (h : Heap) : Prop :=
  map_Forall (fun _ cells => Forall (closedValue h) cells) h.

Definition closedContext (c : Context) (h : Heap) : Prop :=
  map_Forall (fun _ v => closedValue h v) (data c).

(** [c.shallowCopyKeys[key]] *)
Definition isShared (c : Context) (key : string) : bool :=
  default false (shallowCopyKeys c !! key).


(** What the code relies on from gob.  Encoding reads only the value and
    what it leads to, so objects allocated elsewhere do not change it;
    whether decoding fails depends on the buffer alone; and decoding what
    was encoded from a value yields a clone of that value. *)
Record GobContract `{Gob} : Prop := {
  encode_stable : forall (h h' : Heap) (v : Value),
    closedHeap h -> closedValue h v -> h ⊆ h' -> gob_Encode h' v = gob_Encode h v;
  decode_failure_stable : forall (buf : Buffer) (h h' : Heap) (e : string),
    gob_Decode buf h = Err e -> gob_Decode buf h' = Err e;
  roundtrip_clones : forall (h : Heap) (v v' : Value) (buf : Buffer) (h' : Heap),
    gob_Encode h v = Ok buf -> gob_Decode buf h = Ok (v', h') ->
    clonedFrom h h' v' (fun depth => observe depth h v)
}.

(* ------------------------------------------------------------------- *)
(** ** A model of encoding/gob                                           *)
(* ------------------------------------------------------------------- *)

(** What gob puts on the wire for a value: its contents, without any
    address. *)
Inductive Wire :=
| WNil
| WBool (b : bool)
| WInt (z : Z)
| WString (s : string)
| WSeq (items : list Wire).

(** Running a fallible function over a list, stopping at the first error. *)
Fixpoint mapM {A B} (f : A -> result B) (l : list A) : result (list B) :=
  match l with
  | [] => Ok []
  | x :: l' =>
      match f x with
      | Err e => Err e
      | Ok y =>
          match mapM f l' with
          | Err e => Err e
          | Ok ys => Ok (y :: ys)
          end
      end
  end.

(** [enc.Encode]: gob walks the value and flattens every reference it
    meets.  It refuses an opaque value.  [stack] bounds how deep the walk
    may nest (a cyclic value makes the Go encoder recurse until the stack
    is gone; here the walk fails instead). *)
Fixpoint gobEncode (stack : nat) (h : Heap) (v : Value) : result Wire :=
  match v with
  | VNil => Ok WNil
  | VBool b => Ok (WBool b)
  | VInt z => Ok (WInt z)
  | VString s => Ok (WString s)
  | VOpaque _ => Err "gob: type not registered for interface"
  | VRef l =>
      match stack with
      | O => Err "gob: value nested too deeply"
      | S stack' =>
          match h !! l with
          | None => Err "gob: invalid reference"
          | Some cells =>
              match mapM (gobEncode stack' h) cells with
              | Err e => Err e
              | Ok items => Ok (WSeq items)
              end
          end
      end
  end.

(** Decoding the items of a sequence one after the other, each in the heap
    left by the one before. *)
Definition decodeList (decode : Wire -> Heap -> Value * Heap)
    : list Wire -> Heap -> list Value * Heap :=
  fix decodeItems (ws : list Wire) (h : Heap) : list Value * Heap :=
    match ws with
    | [] => ([], h)
    | w :: ws' =>
        let '(v, h1) := decode w h in
        let '(vs, h2) := decodeItems ws' h1 in
        (v :: vs, h2)
    end.

(** [dec.Decode]: gob rebuilds the value, allocating a new object for
    every sequence on the wire. *)
Fixpoint gobDecode (w : Wire) (h : Heap) : Value * Heap :=
  match w with
  | WNil => (VNil, h)
  | WBool b => (VBool b, h)
  | WInt z => (VInt z, h)
  | WString s => (VString s, h)
  | WSeq items =>
      let '(cells, h1) := decodeList gobDecode items h in
      let l := fresh (dom h1) in
      (VRef l, <[l := cells]> h1)
  end.

(** What a reader sees of a value rebuilt from the wire. *)
Fixpoint obsOfWire (depth : nat) (w : Wire) : Obs :=
  match w with
  | WNil => ONil
  | WBool b => OBool b
  | WInt z => OInt z
  | WString s => OString s
  | WSeq items =>
      match depth with
      | O => OBelow
      | S depth' => OObject false (map (obsOfWire depth') items)
      end
  end.


(** The model as an instance of the two calls; [stack] is the depth to
    which the encoder may nest. *)
Definition gob_model (stack : nat) : Gob :=
  {| Buffer := Wire;
     gob_Encode := gobEncode stack;
     gob_Decode := fun buf h => Ok (gobDecode buf h) |}.

End context.

(* ===================================================================== *)
(** * Answers of the libraries for the worked examples                     *)
(* ===================================================================== *)

(** The decoder is the model above.  The other two answers are only right
  where the examples use them: tools whose parameter schema is already
  indented, and background jobs started with an empty input. *)
Definition example_externals : Externals :=
  {| json_Unmarshal := json.Unmarshal;
   json_Indent := fun src => Ok src;
   fmt_v := fun m => if (size m =? 0)%nat then "map[]" else "map[...]" |}.

(* ===================================================================== *)
(** * The extraction rule in the words of the specification               *)
(* ===================================================================== *)

Module spec.

(** The number of bytes up to and including the brace that closes the
    span, scanning [s] with [depth] braces open. *)
Fixpoint balancedEnd (s : string) (depth : nat) : option nat :=
  match s with
  | EmptyString => None
  | String c s' =>
      if Ascii.eqb c "{"%char then S <$> balancedEnd s' (S depth)
      else if Ascii.eqb c "}"%char then
        match depth with
        | O => None
        | S O => Some 1%nat
        | S d => S <$> balancedEnd s' d
        end
      else S <$> balancedEnd s' depth
  end.

(** The first balanced brace span of the text: from the first opening
    brace to the brace that closes it. *)
Definition firstBalancedSpan (s : string) : option string :=
  let start := strings.Index s "{" in
  if start =? -1 then None
  else
    let tail := json.dropS (Z.to_nat start) s in
    (fun n => json.takeS n tail) <$> balancedEnd tail 0.

End spec.

(* ===================================================================== *)
(** * Data of the worked examples                                          *)
(* ===================================================================== *)

Module examples.

(** Ten messages, numbered by their content. *)
Definition tenMessages : list Message :=
  map (fun i => mkMessage "user" (pretty i) "user_input") (seq 0 10).

(** The options [BuildAgent] passes to [NewAgent]. *)
Definition buildAgentOptions : list agent.AgentOption :=
  [agent.WithSystemPrompt "You are a helper."; agent.WithMaxIterations 2;
   agent.WithTools []; agent.WithLogger].

(** A well-formed action, as the model is asked to write it. *)
Definition finishJSON : string := Eval vm_compute in
  bq "{`thought`:`done`,`action`:`finish`,`action_input`:{`final_response`:`42`},`status`:`complete`}".

Definition finishAction : LLMResponseAction :=
  mkAction "finish" {[ "final_response" := JString "42" ]} "done" "complete".

(** The same action without its outer braces. *)
Definition finishBody : string := Eval vm_compute in
  bq "`thought`:`done`,`action`:`finish`,`action_input`:{`final_response`:`42`},`status`:`complete`".

(** An agent with two tools and a budget of two iterations. *)
Definition exampleAgent : agent.Agent :=
  agent.NewAgent "main"
    [agent.WithMaxIterations 2;
     agent.WithTools [tools.mkTool "echo" "Echo the input" "{}";
                      tools.mkTool "cat" "Read a file" "{}"]].

(** A world in which the model answers [reply], no job is ready and
    every tool returns at once. *)
Definition quietWorld (reply : string) : agent.World :=
  agent.mkWorld [] (fun _ => agent.SelectDefault) (fun _ => Ok reply)
                (fun _ _ => agent.ToolReturned (Ok "tool output")) "job-1" [].

(** An action naming a tool nobody registered. *)
Definition unknownJSON : string := Eval vm_compute in
  bq "{`thought`:`try`,`action`:`grep`,`action_input`:{},`status`:`continue`}".

Definition unknownAction : LLMResponseAction := mkAction "grep" ∅ "try" "continue".

(** An action naming a registered tool, yet with status complete. *)
Definition toolCompleteJSON : string := Eval vm_compute in
  bq "{`thought`:`t`,`action`:`echo`,`action_input`:{`final_response`:`42`},`status`:`complete`}".

Definition toolCompleteAction : LLMResponseAction :=
  mkAction "echo" {[ "final_response" := JString "42" ]} "t" "complete".

(** A completion whose [final_response] is a number. *)
Definition numericFinishJSON : string := Eval vm_compute in
  bq "{`thought`:`t`,`action`:`finish`,`action_input`:{`final_response`:42},`status`:`complete`}".

Definition numericFinishAction : LLMResponseAction :=
  mkAction "finish" {[ "final_response" := JNumber "42" ]} "t" "complete".

(** The frame of [exampleAgent] at the start of the loop, and the same with
    one background job tracked. *)
Definition idleFrame : agent.Frame := agent.start exampleAgent "prompt" "question".

Definition busyFrame : agent.Frame :=
  agent.set_self idleFrame
    (agent.set_backgroundJobs (agent.self idleFrame)
       {[ "job-0" := agent.mkJob "job-0" "echo" ∅ ]}).

(** The system prompt of [exampleAgent]. *)
Definition examplePrompt : string := Eval vm_compute in
  match @agent.buildSystemPrompt example_externals []
          (agent.systemPrompt exampleAgent) (agent.tools exampleAgent) with
  | Ok fullSystemPrompt => fullSystemPrompt
  | Err _ => ""
  end.

(** Two passes in which the model never completes: first prose without any
    JSON, then an unknown tool. *)
Definition stubbornWorlds : list agent.World :=
  [quietWorld "I am still thinking."; quietWorld unknownJSON].

(** A store with an unshared slice [a = [1, 2]] and a shared object [b]. *)
Definition exampleHeap : gmap context.loc (list context.Value) :=
  {[ 1%positive := [context.VInt 1; context.VInt 2];
     2%positive := [context.VString "x"] ]}.

Definition exampleContext : context.Context :=
  context.Set_
    (context.Set_ context.NewContext "a" (context.VRef 1%positive) false)
    "b" (context.VRef 2%positive) true.

Definition copyWorld : context.World := context.mkWorld [] [].

(** The gob of the examples nests at most eight deep. *)
Definition exampleGob : context.Gob := context.gob_model 8.

(** A store holding a channel under an unshared key. *)
Definition opaqueHeap : gmap context.loc (list context.Value) :=
  {[ 1%positive := [] ]}.

Definition opaqueContext : context.Context :=
  context.Set_ context.NewContext "ch" (context.VOpaque 1%positive) false.

(** The delegator of the examples, and a world in which the child run of
    task T2 fails while every other step succeeds. *)
Definition exampleDelegator : assistants.ParallelTaskDelegator :=
  assistants.mkDelegator "worker".

Definition secondFails (schedule : list nat) : assistants.World :=
  assistants.mkWorld
    (fun _ => Ok tt) (fun _ => Ok tt)
    (fun _ description =>
       if (description =? "T2")%string then Err "boom"
       else Ok ("done " ++ description))
    schedule.

Definition threeTasks : gmap string jsonValue :=
  {[ "tasks" := JArray [JString "T1"; JString "T2"; JString "T3"] ]}.

(** The store and the heap after copying [exampleContext]. *)
Definition copiedExample : context.Context * gmap context.loc (list context.Value) :=
  match @context.Copy exampleGob copyWorld exampleContext exampleHeap with
  | Ok r => r
  | Err _ => (context.NewContext, ∅)
  end.

(** What [Execute] returns when the child run of T2 fails. *)
Definition secondFailsText : string :=
  "--- 任务 #1 结果 ---" ++ nl ++ "done T1" ++ nl
  ++ "--- 任务 #2 结果 ---" ++ nl ++ "错误: 任务 #1: 执行失败: boom" ++ nl
  ++ "--- 任务 #3 结果 ---" ++ nl ++ "done T3" ++ nl.

End examples.

(* ===================================================================== *)
(** * Properties of the Go built-ins                                       *)
(* ===================================================================== *)

Section go_facts.
Context {A : Type}.
Implicit Types (l : list A) (seed : list nat).

Lemma copy_make_len (zero : A) l : copy (make zero (len l)) l = l.
Proof.
  unfold copy, make, len. rewrite Nat2Z.id, length_replicate.
  rewrite firstn_all, drop_ge by (rewrite length_replicate; lia).
  apply app_nil_r.
Qed.

Lemma shuffle_perm seed l : shuffle seed l ≡ₚ l.
Proof.
  revert l. induction seed as [|n seed IH]; intros l; simpl; [done|].
  destruct (l !! (n `mod` length l)%nat) as [x|] eqn:E; [|done].
  rewrite IH. symmetry. by apply delete_Permutation.
Qed.

(** Every order of visit is picked by some seed. *)
Lemma shuffle_complete l l' : l' ≡ₚ l -> exists seed, shuffle seed l = l'.
Proof.
  revert l. induction l' as [|x l' IH]; intros l HP.
  - apply Permutation_nil_l in HP as <-. by exists [].
  - assert (x ∈ l) as Hin by (rewrite <- HP; left).
    apply list_elem_of_lookup in Hin as [i Hi].
    assert (i < length l)%nat as Hlt by (by eapply lookup_lt_Some).
    destruct (IH (delete i l)) as [seed Hs].
    { apply (Permutation_cons_inv (a := x)).
      rewrite HP. by apply delete_Permutation. }
    exists (i :: seed). simpl.
    rewrite Nat.mod_small by done. by rewrite Hi, Hs.
Qed.

Lemma shuffle_elem_of seed l x : x ∈ shuffle seed l <-> x ∈ l.
Proof. by rewrite shuffle_perm. Qed.

End go_facts.

Lemma range_perm {V} (seed : list nat) (m : gmap string V) :
  range seed m ≡ₚ map_to_list m.
Proof. apply shuffle_perm. Qed.

Lemma range_NoDup_keys {V} (seed : list nat) (m : gmap string V) :
  NoDup (range seed m).*1.
Proof. rewrite range_perm. apply NoDup_fst_map_to_list. Qed.

Lemma range_lookup {V} (seed : list nat) (m : gmap string V) k v :
  (k, v) ∈ range seed m <-> m !! k = Some v.
Proof. rewrite range_perm. apply elem_of_map_to_list. Qed.

(* ===================================================================== *)
(** * History strategies                                                   *)
(* ===================================================================== *)

Module history_facts.
Import history examples.

Lemma NoOpStrategy_Apply_id (messages : list Message) :
  NoOpStrategy_Apply messages = messages.
Proof. apply copy_make_len. Qed.

Lemma KeepLastN_Apply_drop (N : Z) (messages : list Message) :
  1 <= N < len messages ->
  KeepLastN_Apply N messages = drop (length messages - Z.to_nat N) messages.
Proof.
  intros HN. unfold KeepLastN_Apply, len in *.
  replace (N <=? 0) with false by lia.
  replace (N >=? Z.of_nat (length messages)) with false by lia.
  cbn [orb]. fold (len (slice_from messages (Z.of_nat (length messages) - N))).
  rewrite copy_make_len. unfold slice_from. f_equal. lia.
Qed.

Lemma KeepLastN_Apply_all (N : Z) (messages : list Message) :
  N <= 0 \/ N >= len messages -> KeepLastN_Apply N messages = messages.
Proof.
  intros HN. unfold KeepLastN_Apply.
  replace ((N <=? 0) || (N >=? len messages)) with true.
  - apply copy_make_len.
  - symmetry. apply orb_true_iff. lia.
Qed.

(** C6. For a sequence of length L and 1 <= N < L, [KeepLastN.Apply]
    returns exactly the last N messages in their original order: the
    sequence is some dropped prefix followed by the result, and the
    result has N messages.  For N >= L it returns the whole sequence
    unchanged. *)
Theorem KeepLastN_Apply_last_N (N : Z) (messages : list Message) :
  (1 <= N < len messages ->
     len (KeepLastN_Apply N messages) = N /\
     exists dropped, messages = (dropped ++ KeepLastN_Apply N messages)%list)
  /\ (N >= len messages -> KeepLastN_Apply N messages = messages).
Proof.
  split.
  - intros HN. rewrite KeepLastN_Apply_drop by done. split.
    + unfold len in *. rewrite length_drop. lia.
    + exists (take (length messages - Z.to_nat N) messages).
      by rewrite take_drop.
  - intros HN. apply KeepLastN_Apply_all. by right.
Qed.

Lemma KeepLastN_Apply_last_N_witness :
  (len (KeepLastN_Apply 3 tenMessages) = 3 /\
   exists dropped, tenMessages = (dropped ++ KeepLastN_Apply 3 tenMessages)%list)
  /\ KeepLastN_Apply 12 tenMessages = tenMessages.
Proof.
  split.
  - apply (KeepLastN_Apply_last_N 3 tenMessages). unfold len. simpl. lia.
  - apply (KeepLastN_Apply_last_N 12 tenMessages). unfold len. simpl. lia.
Defined.

Example KeepLastN_3_of_10 :
  KeepLastN_Apply 3 tenMessages
  = [mkMessage "user" "7" "user_input"; mkMessage "user" "8" "user_input";
     mkMessage "user" "9" "user_input"].
Proof. reflexivity. Qed.

Lemma NewAgent_keeps_strategy (opts : list agent.AgentOption) (a : agent.Agent) :
  Forall (fun o => forall s, o <> agent.WithHistoryStrategy s) opts ->
  agent.historyStrategy (foldl agent.applyOption a opts) = agent.historyStrategy a.
Proof.
  intros Hopts. revert a.
  induction Hopts as [|o opts Ho _ IH]; intros a; simpl; [done|].
  rewrite IH. destruct o; simpl; try done. by destruct (Ho strategy).
Qed.

(** C7. The default history strategy (the one [NewAgent] installs when no
    option replaces it) is idempotent: applying it twice to a message
    sequence yields the same output as applying it once. *)
Theorem default_strategy_idempotent (name : string) (opts : list agent.AgentOption)
    (m : list Message) :
  Forall (fun o => forall s, o <> agent.WithHistoryStrategy s) opts ->
  let strategy := agent.historyStrategy (agent.NewAgent name opts) in
  Apply strategy (Apply strategy m) = Apply strategy m.
Proof.
  intros Hopts strategy. subst strategy. unfold agent.NewAgent.
  rewrite NewAgent_keeps_strategy by done. simpl.
  by rewrite !NoOpStrategy_Apply_id.
Qed.

Lemma default_strategy_idempotent_witness :
  let strategy := agent.historyStrategy (agent.NewAgent "main" buildAgentOptions) in
  Apply strategy (Apply strategy tenMessages) = Apply strategy tenMessages.
Proof.
  apply (default_strategy_idempotent "main" buildAgentOptions tenMessages).
  repeat constructor; discriminate.
Defined.

End history_facts.

(* ===================================================================== *)
(** * The action codec                                                     *)
(* ===================================================================== *)

Module strings_facts.
Import strings.

#[local] Arguments String.append : simpl nomatch.

Lemma prefix_brace (b c : ascii) (x : string) :
  String.prefix (String b "") (String c x) = bool_decide (b = c).
Proof.
  simpl. destruct (ascii_dec b c) as [->|Hne].
  - rewrite bool_decide_true by done. by destruct x.
  - by rewrite bool_decide_false.
Qed.

Lemma Index_from_absent_cons (b c : ascii) (s : string) (i : Z) :
  0 <= i -> Index_from (String c s) (String b "") i = -1 ->
  b <> c /\ Index_from s (String b "") (i + 1) = -1.
Proof.
  intros Hi. cbn [Index_from]. rewrite prefix_brace.
  case_bool_decide; [lia|done].
Qed.

(** With no [b] in [pre], the first [b] of [pre ++ b :: rest] is the one
    shown. *)
Lemma Index_from_app (b : ascii) (pre rest : string) (i : Z) :
  0 <= i -> Index_from pre (String b "") i = -1 ->
  Index_from (pre ++ String b rest) (String b "") i = i + strlen pre.
Proof.
  unfold strlen. revert i. induction pre as [|c pre IH]; intros i Hi Habs.
  - cbn [String.append Index_from]. rewrite prefix_brace, bool_decide_true by done.
    simpl. lia.
  - apply Index_from_absent_cons in Habs as [Hne Habs]; [|done].
    cbn [String.append Index_from]. rewrite prefix_brace, bool_decide_false by done.
    rewrite IH by (done || lia). cbn [String.length]. lia.
Qed.

Lemma LastIndex_from_absent (b : ascii) (s : string) (i j found : Z) :
  0 <= j -> Index_from s (String b "") j = -1 ->
  LastIndex_from s (String b "") i found = found.
Proof.
  revert i j found. induction s as [|c s IH]; intros i j found Hj Habs; [done|].
  apply Index_from_absent_cons in Habs as [Hne Habs]; [|done].
  cbn [LastIndex_from]. rewrite prefix_brace, bool_decide_false by done.
  apply (IH _ (j + 1)); [lia|done].
Qed.

(** With no [b] in [post], the last [b] of [x ++ b :: post] is the one
    shown. *)
Lemma LastIndex_from_app (b : ascii) (x post : string) (i found : Z) :
  Index_from post (String b "") 0 = -1 ->
  LastIndex_from (x ++ String b post) (String b "") i found = i + strlen x.
Proof.
  unfold strlen. intros Habs. revert i found.
  induction x as [|c x IH]; intros i found.
  - cbn [String.append LastIndex_from]. rewrite prefix_brace, bool_decide_true by done.
    rewrite (LastIndex_from_absent b post (i + 1) 0 i) by done. simpl. lia.
  - cbn [String.append LastIndex_from]. rewrite IH. cbn [String.length]. lia.
Qed.

Lemma substring_skip (pre s : string) (n : nat) :
  String.substring (String.length pre) n (pre ++ s) = String.substring 0 n s.
Proof. induction pre as [|c pre IH]; [done|]. simpl. apply IH. Qed.

Lemma substring_take (s post : string) :
  String.substring 0 (String.length s) (s ++ post) = s.
Proof.
  induction s as [|c s IH]; simpl.
  - by destruct post.
  - by rewrite IH.
Qed.

Lemma append_assoc (a b c : string) : ((a ++ b) ++ c = a ++ (b ++ c))%string.
Proof. induction a as [|x a IH]; simpl; [done|]. by rewrite IH. Qed.

Lemma append_empty_r (s : string) : (s ++ "")%string = s.
Proof. induction s as [|c s IH]; simpl; [done|]. by rewrite IH. Qed.

Lemma length_append (a b : string) :
  String.length (a ++ b) = (String.length a + String.length b)%nat.
Proof. induction a as [|x a IH]; simpl; [done|]. by rewrite IH. Qed.

Lemma strlen_nonneg (s : string) : 0 <= strlen s.
Proof. unfold strlen. lia. Qed.

Lemma Contains_false (s : string) (b : ascii) :
  Contains s (String b "") = false -> Index_from s (String b "") 0 = -1.
Proof.
  unfold Contains, Index. intros H.
  assert (forall t i, 0 <= i ->
            Index_from t (String b "") i = -1 \/ i <= Index_from t (String b "") i) as Hge.
  { induction t as [|c t IH]; intros i Hi; cbn [Index_from].
    - simpl. by left.
    - rewrite prefix_brace. case_bool_decide; [right; lia|].
      destruct (IH (i + 1)) as [?|?]; [lia|by left|right; lia]. }
  destruct (Hge s 0) as [?|?]; [lia|done|lia].
Qed.

End strings_facts.

Module codec_facts.
Import strings strings_facts agent examples.

#[local] Arguments String.append : simpl nomatch.

Section extraction.
Context `{Externals}.

(** The slice handed to the decoder: from the first opening brace to the
    last closing brace of the text. *)
Lemma parseLLMResponse_span (pre mid post : string) :
  Contains pre "{" = false -> Contains post "}" = false ->
  parseLLMResponse (pre ++ ("{" ++ mid ++ "}") ++ post)
  = match json_Unmarshal ("{" ++ mid ++ "}") with
    | Err err => Err ("解析 LLM 响应 JSON 失败: " ++ err)
    | Ok parsedResponse => Ok parsedResponse
    end.
Proof.
  intros Hpre Hpost.
  apply Contains_false in Hpre. apply Contains_false in Hpost.
  unfold parseLLMResponse.
  set (text := pre ++ ("{" ++ mid ++ "}") ++ post).
  assert (Index text "{" = strlen pre) as ->.
  { unfold Index, text. simpl. rewrite Index_from_app by (done || lia). lia. }
  assert (LastIndex text "}" = strlen pre + 1 + strlen mid) as ->.
  { unfold LastIndex, text.
    replace (pre ++ ("{" ++ mid ++ "}") ++ post)
      with ((pre ++ "{" ++ mid) ++ String "}" post).
    - rewrite LastIndex_from_app by done. unfold strlen.
      rewrite length_append. simpl. lia.
    - rewrite append_assoc. f_equal. simpl. f_equal. by rewrite append_assoc. }
  pose proof (strlen_nonneg pre). pose proof (strlen_nonneg mid).
  replace (strlen pre =? -1) with false by lia.
  replace (strlen pre + 1 + strlen mid =? -1) with false by lia.
  replace (strlen pre >? strlen pre + 1 + strlen mid) with false by lia.
  cbn [orb]. unfold slice, text, strlen.
  rewrite Nat2Z.id.
  replace (Z.to_nat _) with (String.length ("{" ++ mid ++ "}")).
  - by rewrite substring_skip, substring_take.
  - simpl. rewrite length_append. simpl. lia.
Qed.

(** C1 (as amended). [parseLLMResponse] hands to the decoder the span from
    the first opening brace to the last closing brace of the raw output.
    So a well-formed Action JSON object embedded in a longer string is
    extracted and parsed into its Action whenever the prose before it holds
    no opening brace and the prose after it holds no closing brace. *)
Theorem parseLLMResponse_tolerates_prose (pre mid post : string)
    (action : LLMResponseAction) :
  Contains pre "{" = false ->
  Contains post "}" = false ->
  json_Unmarshal ("{" ++ mid ++ "}") = Ok action ->
  parseLLMResponse (pre ++ ("{" ++ mid ++ "}") ++ post) = Ok action.
Proof.
  intros Hpre Hpost Hjson.
  rewrite parseLLMResponse_span by done. by rewrite Hjson.
Qed.

End extraction.

Lemma parseLLMResponse_tolerates_prose_witness :
  @parseLLMResponse example_externals
    ("Sure, the answer follows: " ++ ("{" ++ finishBody ++ "}") ++ " Done (1).")
  = Ok finishAction.
Proof.
  apply (@parseLLMResponse_tolerates_prose example_externals
           "Sure, the answer follows: " finishBody " Done (1)." finishAction);
    vm_compute; reflexivity.
Defined.

(** The action of the example is well formed, and the decoder reads it. *)
Example finishJSON_decodes : json.Unmarshal finishJSON = Ok finishAction.
Proof. vm_compute. reflexivity. Qed.

(** C1 (as stated) fails: prose after the object that itself contains
    braces.  The first balanced span of the text is the action, yet the
    codec slices up to the last closing brace of the prose and the decoder
    rejects the slice. *)
Lemma parseLLMResponse_prose_with_braces :
  let text := finishJSON ++ " (as asked in {task})" in
  json.Unmarshal finishJSON = Ok finishAction
  /\ spec.firstBalancedSpan text = Some finishJSON
  /\ @parseLLMResponse example_externals text
     = Err "解析 LLM 响应 JSON 失败: json: invalid character after top-level value".
Proof. vm_compute. repeat split; reflexivity. Qed.

End codec_facts.

(* ===================================================================== *)
(** * The agent loop                                                       *)
(* ===================================================================== *)

Module loop_facts.
Import strings agent.

Section dispatching.
Context `{Externals}.
Implicit Types (w : World) (fr : Frame) (action : LLMResponseAction) (a : Agent).

Lemma getToolNames_fst seed a : getToolNames seed a = (range seed (tools a)).*1.
Proof.
  unfold getToolNames.
  enough (forall (l : list (string * tools.Tool)) (acc : list string),
            foldl (fun names entry => (names ++ [entry.1])%list) acc l
            = (acc ++ l.*1)%list) as Hgen by apply Hgen.
  induction l as [|e l IH]; intros acc; simpl.
  - by rewrite app_nil_r.
  - rewrite IH. by rewrite <- app_assoc.
Qed.

(** The names listed are exactly the registered ones, each once. *)
Lemma getToolNames_exact seed a :
  NoDup (getToolNames seed a)
  /\ forall toolName, toolName ∈ getToolNames seed a <-> is_Some (tools a !! toolName).
Proof.
  rewrite getToolNames_fst. split; [apply range_NoDup_keys|].
  intros toolName. rewrite list_elem_of_fmap. split.
  - intros [[k t] [-> Hin]]. apply range_lookup in Hin. by exists t.
  - intros [t Ht]. exists (toolName, t). split; [done|]. by apply range_lookup.
Qed.

Lemma signalsCompletion_true action :
  signalsCompletion action = true
  <-> Status action = "complete"
      \/ (Action action = "finish" /\ Status action <> "continue").
Proof.
  unfold signalsCompletion.
  rewrite orb_true_iff, andb_true_iff, negb_true_iff.
  by rewrite !String.eqb_eq, String.eqb_neq.
Qed.

Lemma len_map_positive {V} (m : gmap string V) : (len_map m >? 0) = false <-> m = ∅.
Proof.
  unfold len_map. rewrite <- map_size_empty_iff.
  destruct (size m); simpl; split; intros; (done || lia).
Qed.

Lemma dispatch_completion_idle w fr action :
  signalsCompletion action = true ->
  backgroundJobs (self fr) = ∅ ->
  dispatch w fr action = Return Completed fr (finalResponseOf action) None.
Proof.
  intros Hc Hj. unfold dispatch. rewrite Hc.
  by rewrite (proj2 (len_map_positive _) Hj).
Qed.

Lemma dispatch_completion_busy w fr action :
  signalsCompletion action = true ->
  backgroundJobs (self fr) <> ∅ ->
  dispatch w fr action
  = Continue (set_waiting
                (set_self fr (addMessage (self fr) "user" completionDeferredNote
                                         "system_note")) true).
Proof.
  intros Hc Hj. unfold dispatch. rewrite Hc.
  destruct (len_map (backgroundJobs (self fr)) >? 0) eqn:E; [done|].
  by apply len_map_positive in E.
Qed.

Lemma dispatch_unknown w fr action :
  signalsCompletion action = false ->
  Action action <> "wait" ->
  tools (self fr) !! Action action = None ->
  dispatch w fr action
  = Continue (set_self fr
      (addMessage (self fr) "user"
         ("错误: 工具 '" ++ Action action ++ "' 不存在。可用工具: "
          ++ Join (getToolNames (w_toolsSeed w) (self fr)) ", ") "tool_error")).
Proof.
  intros Hc Hw Ht. unfold dispatch. rewrite Hc.
  apply String.eqb_neq in Hw. by rewrite Hw, Ht.
Qed.

(** A [Completed] return leaves the frame as it was and comes with a nil
    error, and no job is tracked at that point. *)
Lemma dispatch_return w fr action site fr' res err :
  dispatch w fr action = Return site fr' res err ->
  site = Completed /\ fr' = fr /\ err = None
  /\ res = finalResponseOf action
  /\ signalsCompletion action = true /\ backgroundJobs (self fr) = ∅.
Proof.
  unfold dispatch.
  destruct (signalsCompletion action) eqn:Hc.
  - destruct (len_map (backgroundJobs (self fr)) >? 0) eqn:E; [done|].
    apply len_map_positive in E. intros [= <- <- <- <-]. done.
  - destruct (Action action =? "wait")%string.
    + by destruct (len_map (backgroundJobs (self fr)) >? 0).
    + destruct (tools (self fr) !! Action action); [|done].
      by destruct (assert_bool _).1.
Qed.

Lemma shuffle_nil {A} (seed : list nat) : shuffle seed (@nil A) = [].
Proof. by destruct seed. Qed.

Lemma checkAndInject_idle w a :
  backgroundJobs a = ∅ -> checkAndInjectBackgroundJobs w a = (a, false).
Proof.
  intros Hj. unfold checkAndInjectBackgroundJobs, range.
  by rewrite Hj, map_to_list_empty, shuffle_nil.
Qed.

Lemma injectJob_maxIterations w acc entry :
  maxIterations (injectJob w acc entry).1 = maxIterations acc.1.
Proof.
  destruct acc as [a b], entry as [jobID job]. unfold injectJob.
  by destruct (w_select w job).
Qed.

Lemma checkAndInject_maxIterations w a :
  maxIterations (checkAndInjectBackgroundJobs w a).1 = maxIterations a.
Proof.
  unfold checkAndInjectBackgroundJobs.
  generalize (range (w_jobsSeed w) (backgroundJobs a)) (false).
  intros l. revert a. induction l as [|e l IH]; intros a b; [done|].
  cbn [foldl]. destruct (injectJob w (a, b) e) as [a' b'] eqn:E.
  rewrite IH. pose proof (injectJob_maxIterations w (a, b) e) as Hm.
  by rewrite E in Hm.
Qed.

Lemma invocations_snoc (calls : list Event) (e : Event) :
  invocations (calls ++ [e]) = (invocations calls + (if isInvoke e then 1 else 0))%nat.
Proof.
  unfold invocations. rewrite filter_app, length_app. f_equal.
  by destruct e.
Qed.

Lemma executions_snoc (calls : list Event) (e : Event) :
  executions (calls ++ [e]) = (executions calls + (if isExecute e then 1 else 0))%nat.
Proof.
  unfold executions. rewrite filter_app, length_app. f_equal.
  by destruct e.
Qed.

(** An action that does not signal completion never ends the run, and
    acting on it neither counts an iteration nor calls the model. *)
Lemma dispatch_continues w fr action :
  signalsCompletion action = false ->
  exists fr',
    dispatch w fr action = Continue fr'
    /\ iterationCount fr' = iterationCount fr
    /\ maxIterations (self fr') = maxIterations (self fr)
    /\ invocations (calls fr') = invocations (calls fr).
Proof.
  intros Hc. unfold dispatch. rewrite Hc.
  destruct (Action action =? "wait")%string.
  { destruct (len_map (backgroundJobs (self fr)) >? 0); eexists; done. }
  destruct (tools (self fr) !! Action action) as [tool|]; [|eexists; done].
  destruct (assert_bool _).1.
  - eexists. split; [done|]. repeat split.
    unfold startBackgroundTask. cbn -[String.append invocations]. rewrite invocations_snoc. simpl. lia.
  - eexists. split; [done|]. repeat split.
    cbn -[String.append invocations]. rewrite invocations_snoc. simpl. lia.
Qed.

Lemma think_continues w fr :
  respondsWithoutCompleting w ->
  exists fr',
    think w fr = Continue fr'
    /\ iterationCount fr' = iterationCount fr + 1
    /\ maxIterations (self fr') = maxIterations (self fr)
    /\ invocations (calls fr') = S (invocations (calls fr)).
Proof.
  intros Hw. unfold think.
  destruct (Hw (llmMsgsOf (self fr))) as [content [Hinv Hact]].
  cbn [self]. rewrite Hinv.
  destruct (parseLLMResponse content) as [action|e] eqn:Hparse.
  - edestruct (dispatch_continues w) as [fr' [Hd [Hi [Hm Hc]]]]; [by apply Hact|].
    exists fr'. split; [exact Hd|]. rewrite Hi, Hm, Hc.
    cbn -[String.append invocations]. rewrite invocations_snoc. simpl. repeat split. lia.
  - eexists. split; [done|].
    cbn -[String.append invocations]. rewrite invocations_snoc. simpl. repeat split. lia.
Qed.

Lemma pass_continues w fr :
  isWaitingForJobs fr = false ->
  respondsWithoutCompleting w ->
  exists fr',
    pass w fr = Continue fr'
    /\ iterationCount fr' = iterationCount fr + 1
    /\ maxIterations (self fr') = maxIterations (self fr)
    /\ invocations (calls fr') = S (invocations (calls fr)).
Proof.
  intros Hwait Hw. unfold pass.
  pose proof (checkAndInject_maxIterations w (self fr)) as Hmax.
  destruct (checkAndInjectBackgroundJobs w (self fr)) as [a injectedResult].
  simpl in Hmax.
  set (fr1 := if injectedResult then _ else _).
  assert (isWaitingForJobs fr1 = false /\ iterationCount fr1 = iterationCount fr
          /\ maxIterations (self fr1) = maxIterations (self fr)
          /\ calls fr1 = calls fr) as (Hw1 & Hi1 & Hm1 & Hc1).
  { subst fr1. by destruct injectedResult. }
  rewrite Hw1. destruct (think_continues w fr1 Hw) as (fr' & Ht & Hi & Hm & Hc).
  exists fr'. by rewrite Ht, Hi, Hm, Hc, Hi1, Hm1, Hc1.
Qed.

(** A model call that fails, or a completion with no job tracked: the only
    ways a pass ends the run. *)
Lemma think_return w fr site fr' res err :
  think w fr = Return site fr' res err ->
  site = InvokeFailed
  \/ (site = Completed /\ err = None /\ backgroundJobs (self fr') = ∅).
Proof.
  unfold think. cbn [self].
  destruct (w_Invoke w _) as [content|e]; [|intros [= <- _ _ _]; by left].
  destruct (parseLLMResponse content) as [action|e]; [|done].
  intros Hd. apply dispatch_return in Hd as (-> & -> & -> & _ & _ & Hj).
  right. done.
Qed.

Lemma pass_return w fr site fr' res err :
  pass w fr = Return site fr' res err ->
  site = InvokeFailed
  \/ (site = Completed /\ err = None /\ backgroundJobs (self fr') = ∅).
Proof.
  unfold pass. destruct (checkAndInjectBackgroundJobs w (self fr)) as [a b].
  set (fr1 := if b then _ else _). clearbody fr1.
  destruct (isWaitingForJobs fr1).
  - destruct (len_map _ >? 0); [done|]. apply think_return.
  - apply think_return.
Qed.

Lemma loop_completed ws fr fr' res err :
  loop ws fr = Some (Completed, fr', res, err) ->
  backgroundJobs (self fr') = ∅ /\ err = None.
Proof.
  revert fr. induction ws as [|w ws IH]; intros fr; cbn [loop];
    destruct (iterationCount fr <? maxIterations (self fr)); try done.
  destruct (pass w fr) as [fr1|site fr1 res1 err1] eqn:Hp; [apply IH|].
  intros [= -> -> -> ->].
  apply pass_return in Hp as [?|(_ & -> & ?)]; done.
Qed.

(** With no job tracked once the finished jobs have been drained, a
    completion signal from the model ends the run in the pass that hears
    it, without any tool being started. *)
Lemma loop_completes w ws fr content action a1 injectedResult :
  iterationCount fr < maxIterations (self fr) ->
  checkAndInjectBackgroundJobs w (self fr) = (a1, injectedResult) ->
  backgroundJobs a1 = ∅ ->
  (forall llmMsgs, w_Invoke w llmMsgs = Ok content) ->
  parseLLMResponse content = Ok action ->
  signalsCompletion action = true ->
  exists fr',
    loop (w :: ws) fr = Some (Completed, fr', finalResponseOf action, None)
    /\ executions (calls fr') = executions (calls fr).
Proof.
  intros Hlt Hcheck Hj Hinv Hparse Hc. cbn [loop].
  replace (iterationCount fr <? maxIterations (self fr)) with true by lia.
  assert (forall fr0, backgroundJobs (self fr0) = ∅ ->
            exists fr', think w fr0 = Return Completed fr' (finalResponseOf action) None
                        /\ executions (calls fr') = executions (calls fr0)) as Hthink.
  { intros fr0 Hj0. unfold think. cbn [self]. rewrite Hinv, Hparse.
    rewrite dispatch_completion_idle by done.
    eexists. split; [done|].
    cbn -[String.append executions]. rewrite executions_snoc. simpl. lia. }
  unfold pass. rewrite Hcheck.
  set (fr1 := if injectedResult then _ else _).
  assert (self fr1 = a1 /\ calls fr1 = calls fr) as [Hs1 Hc1]
    by (subst fr1; by destruct injectedResult).
  clearbody fr1. destruct (isWaitingForJobs fr1).
  - rewrite Hs1, (proj2 (len_map_positive _) Hj).
    edestruct Hthink as [fr' [-> Hex]]; [|exists fr'; split; [done|]].
    + simpl. exact Hj.
    + rewrite Hex. simpl. by rewrite Hc1.
  - edestruct Hthink as [fr' [-> Hex]]; [|exists fr'; split; [done|]].
    + by rewrite Hs1.
    + by rewrite Hex, Hc1.
Qed.

(** While a job is tracked, a pass that hears a completion signal from the
    model goes on: it ends with the note appended, in the waiting state and
    with the same jobs tracked. *)
Lemma pass_defers_completion w fr content action a1 injectedResult :
  checkAndInjectBackgroundJobs w (self fr) = (a1, injectedResult) ->
  backgroundJobs a1 <> ∅ ->
  isWaitingForJobs fr = false \/ injectedResult = true ->
  (forall llmMsgs, w_Invoke w llmMsgs = Ok content) ->
  parseLLMResponse content = Ok action ->
  signalsCompletion action = true ->
  exists fr',
    pass w fr = Continue fr'
    /\ isWaitingForJobs fr' = true
    /\ backgroundJobs (self fr') = backgroundJobs a1
    /\ last (messages (self fr'))
       = Some (mkMessage "user" completionDeferredNote "system_note").
Proof.
  intros Hcheck Hj Hgo Hinv Hparse Hc. unfold pass. rewrite Hcheck.
  set (fr1 := if injectedResult then _ else _).
  assert (isWaitingForJobs fr1 = false /\ self fr1 = a1) as [Hw1 Hs1].
  { subst fr1. destruct injectedResult; [done|]. by destruct Hgo. }
  clearbody fr1. rewrite Hw1. unfold think. cbn [self]. rewrite Hinv, Hparse.
  rewrite dispatch_completion_busy; [|done|cbn; by rewrite Hs1].
  eexists. split; [done|]. cbn -[completionDeferredNote]. rewrite Hs1.
  split; [done|]. split; [done|]. apply last_snoc.
Qed.

(** C2. In every state of the loop in which a background job is still
    tracked, an Action that signals completion does not make [Run] return:
    acting on it appends the note and switches to waiting for jobs, with
    nothing else changed, and the pass of the loop that heard it goes on to
    the next pass with the jobs still tracked.  And whenever [Run] returns
    through its completion branch, the set of tracked jobs is empty (and
    the error is nil). *)
Theorem completion_waits_for_jobs :
  (forall w fr action,
     signalsCompletion action = true ->
     backgroundJobs (self fr) <> ∅ ->
     exists fr',
       dispatch w fr action = Continue fr'
       /\ isWaitingForJobs fr' = true
       /\ messages (self fr')
          = (messages (self fr)
             ++ [mkMessage "user" completionDeferredNote "system_note"])%list
       /\ backgroundJobs (self fr') = backgroundJobs (self fr)
       /\ iterationCount fr' = iterationCount fr
       /\ calls fr' = calls fr)
  /\ (forall w ws fr content action a1 injectedResult,
        iterationCount fr < maxIterations (self fr) ->
        checkAndInjectBackgroundJobs w (self fr) = (a1, injectedResult) ->
        backgroundJobs a1 <> ∅ ->
        isWaitingForJobs fr = false \/ injectedResult = true ->
        (forall llmMsgs, w_Invoke w llmMsgs = Ok content) ->
        parseLLMResponse content = Ok action ->
        signalsCompletion action = true ->
        exists fr',
          loop (w :: ws) fr = loop ws fr'
          /\ isWaitingForJobs fr' = true
          /\ backgroundJobs (self fr') = backgroundJobs a1)
  /\ (forall seed ws a userInput fr res err,
        Run seed ws a userInput = Some (Completed, fr, res, err) ->
        backgroundJobs (self fr) = ∅ /\ err = None).
Proof.
  split; [|split].
  - intros w fr action Hc Hj. eexists. split.
    + by apply dispatch_completion_busy.
    + done.
  - intros w ws fr content action a1 injectedResult Hlt Hcheck Hj Hgo Hinv Hparse Hc.
    destruct (pass_defers_completion w fr content action a1 injectedResult)
      as (fr' & Hp & Hw & Hjobs & _); try done.
    exists fr'. split; [|done]. cbn [loop].
    replace (iterationCount fr <? maxIterations (self fr)) with true by lia.
    by rewrite Hp.
  - intros seed ws a userInput fr res err. unfold Run.
    destruct (buildSystemPrompt seed (systemPrompt a) (tools a)); [|done].
    apply loop_completed.
Qed.

(** C5. With a budget of n >= 1 iterations, when the prompt has been built,
    the model answers every call, none of its answers signals completion
    and no pass begins in the waiting state, [Run] goes through exactly n
    passes of the loop, each counting one iteration and calling the model
    once, and then returns the fixed fallback text with a nil error. *)
Theorem Run_exhausts_budget seed ws a userInput fullSystemPrompt (n : nat) :
  (1 <= n)%nat ->
  maxIterations a = Z.of_nat n ->
  buildSystemPrompt seed (systemPrompt a) (tools a) = Ok fullSystemPrompt ->
  (n <= length ws)%nat ->
  Forall respondsWithoutCompleting ws ->
  Forall (fun fr => isWaitingForJobs fr = false)
         (passes ws (start a fullSystemPrompt userInput)) ->
  exists fr,
    Run seed ws a userInput = Some (Exhausted, fr, fallbackAnswer, None)
    /\ length (passes ws (start a fullSystemPrompt userInput)) = n
    /\ iterationCount fr = Z.of_nat n
    /\ invocations (calls fr) = n.
Proof.
  intros _ Hmax Hprompt Hlen Hresp Hcalm. unfold Run. rewrite Hprompt.
  set (fr0 := start a fullSystemPrompt userInput) in *.
  assert (iterationCount fr0 + Z.of_nat n = maxIterations (self fr0)) as Hbudget
    by (subst fr0; simpl; lia).
  assert (invocations (calls fr0) = 0%nat) as Hcalls by done.
  enough (exists fr, loop ws fr0 = Some (Exhausted, fr, fallbackAnswer, None)
                     /\ length (passes ws fr0) = n
                     /\ iterationCount fr = iterationCount fr0 + Z.of_nat n
                     /\ invocations (calls fr) = (invocations (calls fr0) + n)%nat)
    as (fr & ? & ? & ? & ?).
  { exists fr. rewrite Hcalls in *. subst fr0. simpl in *. repeat split; (done || lia). }
  clear Hmax Hprompt Hcalls. clearbody fr0.
  revert ws fr0 Hlen Hresp Hcalm Hbudget.
  induction n as [|n IH]; intros ws fr0 Hlen Hresp Hcalm Hbudget.
  - exists fr0. destruct ws as [|w ws]; cbn [loop passes];
      replace (iterationCount fr0 <? maxIterations (self fr0)) with false by lia;
      repeat split; (done || lia).
  - destruct ws as [|w ws]; [simpl in Hlen; lia|].
    apply Forall_cons in Hresp as [Hw Hresp]. simpl in Hlen.
    cbn [loop passes] in *.
    replace (iterationCount fr0 <? maxIterations (self fr0)) with true in * by lia.
    apply Forall_cons in Hcalm as [Hwait Hcalm].
    destruct (pass_continues w fr0 Hwait Hw) as (fr1 & Hp & Hi & Hm & Hc).
    rewrite Hp in *.
    destruct (IH ws fr1) as (fr & Hl & Hn & Hi' & Hc'); [lia|done|done|lia|].
    exists fr. split; [done|]. cbn [length]. rewrite Hn, Hi', Hc', Hi, Hc.
    repeat split; lia.
Qed.

(** C8. Acting on an Action whose [action] names no registered tool, is
    not ["wait"] and does not signal completion does not return: it appends
    one error message, whose text lists the registered tool names (every
    one of them, each once, and nothing else), and leaves every other part
    of the agent and of the loop state as it was. *)
Theorem unknown_tool_lists_names w fr action :
  tools (self fr) !! Action action = None ->
  Action action <> "wait" ->
  signalsCompletion action = false ->
  exists names fr',
    dispatch w fr action = Continue fr'
    /\ NoDup names
    /\ (forall toolName, toolName ∈ names <-> is_Some (tools (self fr) !! toolName))
    /\ messages (self fr')
       = (messages (self fr)
          ++ [mkMessage "user"
                ("错误: 工具 '" ++ Action action ++ "' 不存在。可用工具: "
                 ++ Join names ", ") "tool_error"])%list
    /\ set_messages (self fr') (messages (self fr)) = self fr
    /\ isWaitingForJobs fr' = isWaitingForJobs fr
    /\ iterationCount fr' = iterationCount fr
    /\ calls fr' = calls fr.
Proof.
  intros Ht Hw Hc.
  destruct (getToolNames_exact (w_toolsSeed w) (self fr)) as [Hnd Hnames].
  exists (getToolNames (w_toolsSeed w) (self fr)). eexists. split.
  - by apply dispatch_unknown.
  - repeat split; try done; try apply Hnames.
    by destruct fr as [[] ? ? ?].
Qed.

(** C9. An Action with status ["complete"] is a completion signal whatever
    its [action] field says, and so is an Action with action ["finish"] and
    any status other than ["continue"]: with no job tracked, the pass that
    hears it makes [Run] return the [final_response] of its input with a
    nil error, and no tool is started, even when [action] names a registered
    tool.  (No job tracked: none is left once the pass has drained the jobs
    that are done.) *)
Theorem completion_ignores_action_field w ws fr content action a1 injectedResult :
  iterationCount fr < maxIterations (self fr) ->
  checkAndInjectBackgroundJobs w (self fr) = (a1, injectedResult) ->
  backgroundJobs a1 = ∅ ->
  (forall llmMsgs, w_Invoke w llmMsgs = Ok content) ->
  parseLLMResponse content = Ok action ->
  Status action = "complete"
  \/ (Action action = "finish" /\ Status action <> "continue") ->
  exists fr',
    loop (w :: ws) fr = Some (Completed, fr', finalResponseOf action, None)
    /\ executions (calls fr') = executions (calls fr)
    /\ (forall s, ActionInput action !! "final_response" = Some (JString s) ->
                  finalResponseOf action = s).
Proof.
  intros Hlt Hcheck Hj Hinv Hparse Hc. apply signalsCompletion_true in Hc.
  destruct (loop_completes w ws fr content action a1 injectedResult)
    as (fr' & Hl & He); try done.
  exists fr'. repeat split; try done.
  intros s Hs. unfold finalResponseOf, index_any. by rewrite Hs.
Qed.

(** C10. A completing Action, with no job tracked (none is left once the
    pass has drained the jobs that are done), whose input has no
    ["final_response"] entry or one that is not a string makes [Run] return
    the empty string with a nil error. *)
Theorem completion_without_final_response w ws fr content action a1 injectedResult :
  iterationCount fr < maxIterations (self fr) ->
  checkAndInjectBackgroundJobs w (self fr) = (a1, injectedResult) ->
  backgroundJobs a1 = ∅ ->
  (forall llmMsgs, w_Invoke w llmMsgs = Ok content) ->
  parseLLMResponse content = Ok action ->
  signalsCompletion action = true ->
  (forall s, ActionInput action !! "final_response" <> Some (JString s)) ->
  exists fr', loop (w :: ws) fr = Some (Completed, fr', "", None).
Proof.
  intros Hlt Hcheck Hj Hinv Hparse Hc Hnone.
  destruct (loop_completes w ws fr content action a1 injectedResult)
    as (fr' & Hl & _); try done.
  exists fr'. rewrite Hl. repeat f_equal.
  unfold finalResponseOf, index_any.
  destruct (ActionInput action !! "final_response") as [[]|] eqn:E; try done.
  by destruct (Hnone s).
Qed.

End dispatching.

Import examples.

Lemma completion_waits_for_jobs_witness :
  (exists fr',
     @dispatch example_externals (quietWorld finishJSON) busyFrame finishAction
     = Continue fr'
     /\ isWaitingForJobs fr' = true
     /\ messages (self fr')
        = (messages (self busyFrame)
           ++ [mkMessage "user" completionDeferredNote "system_note"])%list
     /\ backgroundJobs (self fr') = backgroundJobs (self busyFrame)
     /\ iterationCount fr' = iterationCount busyFrame
     /\ calls fr' = calls busyFrame)
  /\ (exists fr',
        @loop example_externals [quietWorld finishJSON] busyFrame
        = @loop example_externals [] fr'
        /\ isWaitingForJobs fr' = true
        /\ backgroundJobs (self fr') = backgroundJobs (self busyFrame))
  /\ (exists fr,
        @Run example_externals [] [quietWorld finishJSON] exampleAgent "question"
        = Some (Completed, fr, "42", None)
        /\ backgroundJobs (self fr) = ∅ /\ @None string = None).
Proof.
  assert (backgroundJobs (self busyFrame) <> ∅) as Hbusy.
  { intros Hempty. apply (f_equal size) in Hempty. vm_compute in Hempty. discriminate. }
  split; [|split].
  - apply (proj1 (@completion_waits_for_jobs example_externals)); [reflexivity|exact Hbusy].
  - apply (proj1 (proj2 (@completion_waits_for_jobs example_externals))
             (quietWorld finishJSON) [] busyFrame finishJSON finishAction
             (self busyFrame) false).
    + vm_compute. reflexivity.
    + vm_compute. reflexivity.
    + exact Hbusy.
    + left. reflexivity.
    + intros llmMsgs. reflexivity.
    + vm_compute. reflexivity.
    + reflexivity.
  - eexists. split; [vm_compute; reflexivity|].
    eapply (proj2 (proj2 (@completion_waits_for_jobs example_externals))
              [] [quietWorld finishJSON] exampleAgent "question" _ "42" None).
    vm_compute. reflexivity.
Defined.

Example completion_with_idle_agent_returns :
  exists fr,
    @Run example_externals [] [quietWorld finishJSON] exampleAgent "question"
    = Some (Completed, fr, "42", None).
Proof. eexists. vm_compute. reflexivity. Qed.

Lemma Run_exhausts_budget_witness :
  exists fr,
    @Run example_externals [] stubbornWorlds exampleAgent "question"
    = Some (Exhausted, fr, fallbackAnswer, None)
    /\ length (@passes example_externals stubbornWorlds
                 (start exampleAgent examplePrompt "question")) = 2%nat
    /\ iterationCount fr = 2
    /\ invocations (calls fr) = 2%nat.
Proof.
  apply (@Run_exhausts_budget example_externals [] stubbornWorlds exampleAgent
           "question" examplePrompt 2).
  - lia.
  - reflexivity.
  - vm_compute. reflexivity.
  - simpl. lia.
  - repeat constructor; intros llmMsgs; eexists; (split; [reflexivity|]);
      intros action Hparse; vm_compute in Hparse; inversion Hparse; reflexivity.
  - vm_compute. repeat constructor.
Defined.

Lemma unknown_tool_lists_names_witness :
  exists names fr',
    @dispatch example_externals (quietWorld unknownJSON) idleFrame unknownAction
    = Continue fr'
    /\ NoDup names
    /\ (forall toolName,
          toolName ∈ names <-> is_Some (tools (self idleFrame) !! toolName))
    /\ messages (self fr')
       = (messages (self idleFrame)
          ++ [mkMessage "user"
                ("错误: 工具 '" ++ Action unknownAction ++ "' 不存在。可用工具: "
                 ++ Join names ", ") "tool_error"])%list
    /\ set_messages (self fr') (messages (self idleFrame)) = self idleFrame
    /\ isWaitingForJobs fr' = isWaitingForJobs idleFrame
    /\ iterationCount fr' = iterationCount idleFrame
    /\ calls fr' = calls idleFrame.
Proof.
  apply (@unknown_tool_lists_names example_externals (quietWorld unknownJSON)
           idleFrame unknownAction).
  - vm_compute. reflexivity.
  - discriminate.
  - reflexivity.
Defined.

Example unknown_tool_message :
  exists fr',
    @dispatch example_externals (quietWorld unknownJSON) idleFrame unknownAction
    = Continue fr'
    /\ last (messages (self fr'))
       = Some (mkMessage "user" "错误: 工具 'grep' 不存在。可用工具: cat, echo" "tool_error").
Proof. eexists. split; vm_compute; reflexivity. Qed.

Lemma completion_ignores_action_field_witness :
  exists fr',
    @loop example_externals [quietWorld toolCompleteJSON] idleFrame
    = Some (Completed, fr', "42", None)
    /\ executions (calls fr') = 0%nat.
Proof.
  destruct (@completion_ignores_action_field example_externals
              (quietWorld toolCompleteJSON) [] idleFrame toolCompleteJSON
              toolCompleteAction (self idleFrame) false)
    as (fr' & Hloop & Hexec & _).
  - vm_compute. reflexivity.
  - vm_compute. reflexivity.
  - reflexivity.
  - intros llmMsgs. reflexivity.
  - vm_compute. reflexivity.
  - left. reflexivity.
  - exists fr'. split; [exact Hloop | exact Hexec].
Defined.

Lemma completion_without_final_response_witness :
  exists fr',
    @loop example_externals [quietWorld numericFinishJSON] idleFrame
    = Some (Completed, fr', "", None).
Proof.
  apply (@completion_without_final_response example_externals
           (quietWorld numericFinishJSON) [] idleFrame numericFinishJSON
           numericFinishAction (self idleFrame) false).
  - vm_compute. reflexivity.
  - vm_compute. reflexivity.
  - reflexivity.
  - intros llmMsgs. reflexivity.
  - vm_compute. reflexivity.
  - reflexivity.
  - intros s. vm_compute. discriminate.
Defined.

End loop_facts.

(* ===================================================================== *)
(** * The context store                                                    *)
(* ===================================================================== *)

Module context_facts.
Import context.

Section heaps.
Implicit Types (h : Heap) (v : Value) (l : loc) (w : Wire).

Lemma newValue_weaken h0 h1 h0' h1' v :
  dom h0' ⊆ dom h0 -> dom h1 ⊆ dom h1' -> newValue h0 h1 v -> newValue h0' h1' v.
Proof. intros H0 H1 Hv l Hl. destruct (Hv l Hl). split; set_solver. Qed.

Lemma newHeap_refl h : newHeap h h.
Proof. intros l cells Hl Hnot. destruct Hnot. by apply elem_of_dom. Qed.

Lemma newHeap_trans h0 ha hb :
  h0 ⊆ ha -> ha ⊆ hb -> newHeap h0 ha -> newHeap ha hb -> newHeap h0 hb.
Proof.
  intros H0a Hab Ha Hb l cells Hl Hnot.
  pose proof (subseteq_dom _ _ H0a). pose proof (subseteq_dom _ _ Hab).
  destruct (ha !! l) as [cells'|] eqn:E.
  - assert (cells' = cells) as ->
      by (pose proof (lookup_weaken _ _ _ _ E Hab); congruence).
    eapply Forall_impl; [by eapply Ha|].
    intros v. by apply newValue_weaken.
  - eapply Forall_impl; [eapply Hb; [done|by apply not_elem_of_dom]|].
    intros v. by apply newValue_weaken.
Qed.

(** Writing to an object that cannot be reached from a value does not
    change what is seen through the value. *)
Lemma observe_frame depth h v l cells :
  (forall l', reach h v l' -> l' <> l) ->
  observe depth (write h l cells) v = observe depth h v.
Proof.
  revert v. induction depth as [|depth IH]; intros v Hfar; destruct v as [| | | |l0|l0];
    try done; cbn [observe].
  all: assert (l0 <> l) as Hne by (apply Hfar; by constructor).
  all: unfold write; rewrite lookup_insert_ne by done.
  all: destruct (h !! l0) as [cs|] eqn:E; [|done]; f_equal.
  all: apply map_ext_in; intros c Hc; apply list_elem_of_In in Hc.
  all: apply IH; intros l' Hl'; apply Hfar.
  all: by eapply reach_cell.
Qed.

(** In a heap without dangling references, what is reached from a value
    was allocated, also when the heap has grown since. *)
Lemma reach_closed h h' v l :
  closedHeap h -> closedValue h v -> h ⊆ h' -> reach h' v l -> l ∈ dom h.
Proof.
  intros Hh Hv Hsub Hreach. induction Hreach as [v l Ht|v l0 cells v' l Ht Hl Hin _ IH].
  - unfold closedValue in Hv. rewrite Ht in Hv. by apply elem_of_dom.
  - apply IH. unfold closedValue in Hv. rewrite Ht in Hv. destruct Hv as [cells0 H0].
    assert (cells0 = cells) as ->
      by (pose proof (lookup_weaken _ _ _ _ H0 Hsub); congruence).
    pose proof (Hh l0 cells H0) as Hcells. simpl in Hcells.
    by eapply Forall_forall in Hcells.
Qed.

(** What has been allocated since [h0], and refers only to such objects,
    leads nowhere into [h0]. *)
Lemma reach_new h0 h1 v l :
  newValue h0 h1 v -> newHeap h0 h1 -> reach h1 v l -> l ∉ dom h0.
Proof.
  intros Hv Hh Hreach. induction Hreach as [v l Ht|v l0 cells v' l Ht Hl Hin _ IH].
  - by destruct (Hv l Ht).
  - apply IH. destruct (Hv l0 Ht) as [_ Hnot].
    pose proof (Hh l0 cells Hl Hnot) as Hcells.
    by eapply Forall_forall in Hcells.
Qed.

Lemma observe_ext depth h h' v :
  closedHeap h -> closedValue h v -> h ⊆ h' ->
  observe depth h' v = observe depth h v.
Proof.
  intros Hh Hv Hsub. revert v Hv.
  induction depth as [|depth IH]; intros v Hv; destruct v as [| | | |l0|l0];
    try done; cbn [observe].
  all: destruct Hv as [cs Hcs].
  all: rewrite Hcs, (lookup_weaken _ _ _ _ Hcs Hsub); f_equal.
  all: apply map_ext_in; intros c Hc; apply list_elem_of_In in Hc.
  all: apply IH; pose proof (Hh l0 cs Hcs) as Hcells; simpl in Hcells.
  all: by eapply Forall_forall in Hcells.
Qed.

Lemma foldl_insert_list_to_map {V} (l : list (string * V)) (m0 : gmap string V) :
  NoDup l.*1 ->
  foldl (fun (m : gmap string V) kv => <[kv.1 := kv.2]> m) m0 l = list_to_map l ∪ m0.
Proof.
  revert m0. induction l as [|[k x] l IH]; intros m0 Hnd.
  - cbn [foldl]. by rewrite list_to_map_nil, (left_id_L ∅ (∪)).
  - rewrite fmap_cons in Hnd. apply NoDup_cons in Hnd as [Hk Hnd].
    cbn [foldl fst snd]. rewrite IH by done.
    rewrite list_to_map_cons, <- insert_union_l. symmetry. apply insert_union_r.
    by apply not_elem_of_list_to_map_1.
Qed.

(** Ranging over a map and inserting every entry rebuilds the map. *)
Lemma foldl_insert_range {V} (seed : list nat) (m : gmap string V) :
  foldl (fun (m : gmap string V) kv => <[kv.1 := kv.2]> m) ∅ (range seed m) = m.
Proof.
  rewrite foldl_insert_list_to_map by apply range_NoDup_keys.
  rewrite (right_id_L ∅ (∪)).
  rewrite (list_to_map_proper (range seed m) (map_to_list m)).
  - apply list_to_map_to_list.
  - apply range_NoDup_keys.
  - apply range_perm.
Qed.

Lemma closedContext_entries (seed : list nat) (c : Context) h :
  closedContext c h ->
  Forall (fun kv => closedValue h kv.2) (range seed (data c)).
Proof.
  intros Hc. apply Forall_forall. intros [k v] Hin.
  apply range_lookup in Hin. by apply (Hc k v).
Qed.

(** Writing to an object out of reach of every entry of a store changes
    nothing of what is read through the store. *)
Lemma read_frame depth (c : Context) h l cells key :
  (forall v l', data c !! key = Some v -> reach h v l' -> l' <> l) ->
  read depth c (write h l cells) key = read depth c h key.
Proof.
  intros Hfar. unfold read, Get. destruct (data c !! key) as [v|] eqn:E.
  - apply observe_frame. intros l'. by apply Hfar.
  - by destruct depth.
Qed.

Lemma clonedFrom_scalar h v view :
  target v = None ->
  (forall h2 depth, observe depth h2 v = view depth) ->
  clonedFrom h h v view.
Proof.
  intros Ht Hview. split; [done|]. split; [|split].
  - intros l Hl. congruence.
  - apply newHeap_refl.
  - intros h2 depth _. apply Hview.
Qed.

End heaps.

Section gob_model.
Implicit Types (h : Heap) (v : Value) (l : loc) (w : Wire).

Lemma mapM_ext {A B} (f g : A -> result B) (xs : list A) :
  Forall (fun x => f x = g x) xs -> mapM f xs = mapM g xs.
Proof. induction 1 as [|x xs Hx _ IH]; simpl; [done|]. by rewrite Hx, IH. Qed.

Lemma mapM_Ok {A B} (f : A -> result B) (xs : list A) (ys : list B) :
  mapM f xs = Ok ys -> Forall2 (fun x y => f x = Ok y) xs ys.
Proof.
  revert ys. induction xs as [|x xs IH]; intros ys; simpl.
  - intros [= <-]. constructor.
  - destruct (f x) as [y|] eqn:Hx; [|done].
    destruct (mapM f xs) as [ys'|]; [|done].
    intros [= <-]. constructor; [done|by apply IH].
Qed.

Lemma gobEncode_ext stack h h' v :
  closedHeap h -> closedValue h v -> h ⊆ h' ->
  gobEncode stack h' v = gobEncode stack h v.
Proof.
  intros Hh Hv Hsub. revert v Hv.
  induction stack as [|stack IH]; intros v Hv; destruct v as [| | | |l0|l0];
    try done; cbn [gobEncode].
  destruct Hv as [cs Hcs].
  rewrite Hcs, (lookup_weaken _ _ _ _ Hcs Hsub).
  rewrite (mapM_ext (gobEncode stack h') (gobEncode stack h)); [done|].
  pose proof (Hh l0 cs Hcs) as Hcells. simpl in Hcells.
  eapply Forall_impl; [exact Hcells|]. intros c Hc. by apply IH.
Qed.

(** What gob puts on the wire is what a reader sees through the value. *)
Lemma gobEncode_observe stack h v w :
  gobEncode stack h v = Ok w -> forall depth, observe depth h v = obsOfWire depth w.
Proof.
  revert v w. induction stack as [|stack IH]; intros v w; destruct v as [| | | |l0|l0];
    cbn [gobEncode]; try (intros [= <-]; by intros []); try done.
  destruct (h !! l0) as [cs|] eqn:E; [|done].
  destruct (mapM (gobEncode stack h) cs) as [items|] eqn:Hm; [|done].
  intros [= <-] [|depth]; [done|]. cbn [observe obsOfWire]. rewrite E. f_equal.
  apply mapM_Ok in Hm. clear E.
  induction Hm as [|c i cs items Hc _ IHm]; [done|].
  cbn [map]. f_equal; [by apply IH|apply IHm].
Qed.

(** Induction over what is on the wire, with the items of a sequence. *)
Lemma Wire_ind_items (P : Wire -> Prop) :
  P WNil -> (forall b, P (WBool b)) -> (forall z, P (WInt z)) ->
  (forall s, P (WString s)) ->
  (forall items, Forall P items -> P (WSeq items)) ->
  forall w, P w.
Proof.
  intros HNil HBool HInt HString HSeq. fix IH 1.
  intros [|b|z|s|items]; [exact HNil|apply HBool|apply HInt|apply HString|].
  apply HSeq. induction items as [|w items IHitems]; constructor.
  - apply IH.
  - apply IHitems.
Qed.

(** Decoding the items of a sequence: each cell is a clone, made after the
    heap in which the decoding began. *)
Lemma decodeList_clones items :
  Forall (fun w => forall h0,
            clonedFrom h0 (gobDecode w h0).2 (gobDecode w h0).1
                       (fun depth => obsOfWire depth w)) items ->
  forall h0,
    let cells := (decodeList gobDecode items h0).1 in
    let h1 := (decodeList gobDecode items h0).2 in
    h0 ⊆ h1
    /\ Forall (newValue h0 h1) cells
    /\ newHeap h0 h1
    /\ forall h2 depth, h1 ⊆ h2 ->
         map (observe depth h2) cells = map (obsOfWire depth) items.
Proof.
  induction 1 as [|w items Hw _ IH]; intros h0; cbn [decodeList].
  - cbn [fst snd]. split; [done|]. split; [constructor|]. split; [apply newHeap_refl|done].
  - destruct (Hw h0) as (H0a & Hva & Hha & Hobs).
    destruct (gobDecode w h0) as [v ha]. cbn [fst snd] in *.
    destruct (IH ha) as (Hab & Hvs & Hhb & Hobss).
    destruct (decodeList gobDecode items ha) as [vs hb]. cbn [fst snd] in *.
    pose proof (subseteq_dom _ _ H0a). pose proof (subseteq_dom _ _ Hab).
    split; [by etrans|]. split; [|split].
    + constructor.
      * eapply newValue_weaken; [| |exact Hva]; done.
      * eapply Forall_impl; [exact Hvs|]. intros c. by apply newValue_weaken.
    + by eapply newHeap_trans.
    + intros h2 depth Hb2. cbn [map]. f_equal.
      * apply Hobs. by etrans.
      * by apply Hobss.
Qed.

(** [dec.Decode] yields a clone of what was put on the wire. *)
Lemma gobDecode_clones w h0 :
  clonedFrom h0 (gobDecode w h0).2 (gobDecode w h0).1 (fun depth => obsOfWire depth w).
Proof.
  revert h0. induction w as [|b|z|s|items IH] using Wire_ind_items; intros h0;
    try (by apply clonedFrom_scalar; [done|intros ? []]).
  cbn [gobDecode].
  destruct (decodeList_clones items IH h0) as (H01 & Hcells & Hh1 & Hobs).
  destruct (decodeList gobDecode items h0) as [cells h1]. cbn [fst snd] in *.
  set (l := fresh (dom h1)).
  assert (l ∉ dom h1) as Hfresh by apply is_fresh.
  assert (h1 ⊆ <[l := cells]> h1) as H1
    by (apply insert_subseteq; by apply not_elem_of_dom).
  pose proof (subseteq_dom _ _ H01). pose proof (subseteq_dom _ _ H1).
  split; [by etrans|]. split; [|split].
  - intros l' [= <-]. rewrite dom_insert_L. set_solver.
  - intros l2 cells2 Hl2 Hnot. destruct (decide (l2 = l)) as [->|Hne].
    + rewrite lookup_insert_eq in Hl2. injection Hl2 as <-.
      eapply Forall_impl; [exact Hcells|]. intros c. by apply newValue_weaken.
    + rewrite lookup_insert_ne in Hl2 by done.
      eapply Forall_impl; [by eapply Hh1|]. intros c. by apply newValue_weaken.
  - intros h2 [|depth] H2; [done|]. cbn [observe obsOfWire].
    rewrite (lookup_weaken (<[l := cells]> h1) h2 l cells);
      [|apply lookup_insert_eq|done].
    f_equal. apply Hobs. by etrans.
Qed.

(** The model of gob meets the contract. *)
Lemma gob_model_contract (stack : nat) : @GobContract (gob_model stack).
Proof.
  split.
  - intros h h' v Hh Hv Hsub. by apply gobEncode_ext.
  - intros buf h h' e. done.
  - intros h v v' buf h' Henc Hdec.
    cbn [gob_Encode gob_Decode gob_model Buffer] in *. injection Hdec as Hdec.
    pose proof (gobDecode_clones buf h) as Hc. rewrite Hdec in Hc. cbn [fst snd] in Hc.
    destruct Hc as (? & ? & ? & Hobs). split; [done|]. split; [done|]. split; [done|].
    intros h2 depth H2. rewrite (Hobs h2 depth H2).
    symmetry. by eapply gobEncode_observe.
Qed.

End gob_model.


Section copying.
Context `{Gob} (contract : GobContract).
Implicit Types (h : Heap) (v : Value) (l : loc).

(** [deepCopyValue] yields a clone of the value it was given. *)
Lemma deepCopyValue_clones h v v' h' :
  deepCopyValue h v = Ok (v', h') ->
  clonedFrom h h' v' (fun depth => observe depth h v).
Proof.
  unfold deepCopyValue.
  assert (match gob_Encode h v with
          | Err err => Err ("failed to gob encode value: " ++ err)
          | Ok buf =>
              match gob_Decode buf h with
              | Err err => Err ("failed to gob decode value: " ++ err)
              | Ok (copiedVal, h') => Ok (copiedVal, h')
              end
          end = Ok (v', h') -> clonedFrom h h' v' (fun depth => observe depth h v))
    as Hgo.
  { destruct (gob_Encode h v) as [buf|] eqn:Henc; [|done].
    destruct (gob_Decode buf h) as [[v1 h1]|] eqn:Hdec; [|done].
    intros [= <- <-]. by eapply roundtrip_clones. }
  destruct v; try exact Hgo.
  intros [= <- <-]. apply clonedFrom_scalar; [done|]. by intros h2 [].
Qed.

(** A value that cannot be duplicated cannot be duplicated later either,
    when more has been allocated. *)
Lemma deepCopyValue_ext h hc v e :
  closedHeap h -> closedValue h v -> h ⊆ hc ->
  deepCopyValue h v = Err e -> exists e', deepCopyValue hc v = Err e'.
Proof.
  intros Hh Hv Hsub. unfold deepCopyValue.
  rewrite (encode_stable contract h hc v Hh Hv Hsub).
  destruct v; try done.
  all: destruct (gob_Encode h _) as [buf|]; [|by eexists].
  all: destruct (gob_Decode buf h) as [[v1 h1]|e1] eqn:Hdec; [done|].
  all: rewrite (decode_failure_stable contract buf h hc e1 Hdec); by eexists.
Qed.

(** The loop over the entries: a shared entry is taken over as it is, any
    other is replaced by a clone of its value. *)
Lemma copyEntries_spec keys h entries :
  closedHeap h -> Forall (fun kv => closedValue h kv.2) entries -> NoDup entries.*1 ->
  forall newData hc newData' h',
    h ⊆ hc -> newHeap h hc ->
    copyEntries keys entries newData hc = Ok (newData', h') ->
    hc ⊆ h' /\ newHeap h h'
    /\ (forall k, k ∉ entries.*1 -> newData' !! k = newData !! k)
    /\ (forall k v, (k, v) ∈ entries ->
          if default false (keys !! k) then newData' !! k = Some v
          else exists v',
                 newData' !! k = Some v'
                 /\ newValue h h' v'
                 /\ forall h2 depth, h' ⊆ h2 -> observe depth h2 v' = observe depth h v).
Proof.
  intros Hh Hclosed Hnd. induction entries as [|[k1 v1] rest IH];
    intros newData hc newData' h' Hsub Hnew; cbn [copyEntries].
  - intros [= <- <-]. split; [done|]. split; [done|]. split; [done|].
    intros k v Hin. by apply elem_of_nil in Hin.
  - apply Forall_cons in Hclosed as [Hv1 Hclosed]. cbn [snd] in Hv1.
    rewrite fmap_cons in Hnd. cbn [fst] in Hnd. apply NoDup_cons in Hnd as [Hk1 Hnd].
    destruct (default false (keys !! k1)) eqn:Hshared.
    + intros Hrest.
      destruct (IH Hclosed Hnd _ _ _ _ Hsub Hnew Hrest) as (HA & HB & HC & HD).
      split; [done|]. split; [done|]. split.
      * intros k Hk. rewrite fmap_cons in Hk. cbn [fst] in Hk.
        apply not_elem_of_cons in Hk as [Hne Hk].
        rewrite HC by done. by rewrite lookup_insert_ne.
      * intros k v Hin. apply elem_of_cons in Hin as [[= -> ->]|Hin]; [|by apply HD].
        rewrite Hshared, HC by done. apply lookup_insert_eq.
    + destruct (deepCopyValue hc v1) as [[v1' h1]|] eqn:Hcopy; [|done].
      intros Hrest. apply deepCopyValue_clones in Hcopy as (Hc1 & Hv1' & Hh1 & Hobs).
      assert (h ⊆ h1) as Hsub1 by (by etrans).
      assert (newHeap h h1) as Hnew1 by (by apply (newHeap_trans h hc h1)).
      destruct (IH Hclosed Hnd _ _ _ _ Hsub1 Hnew1 Hrest) as (HA & HB & HC & HD).
      split; [by etrans|]. split; [done|]. split.
      * intros k Hk. rewrite fmap_cons in Hk. cbn [fst] in Hk.
        apply not_elem_of_cons in Hk as [Hne Hk].
        rewrite HC by done. by rewrite lookup_insert_ne.
      * intros k v Hin. apply elem_of_cons in Hin as [[= -> ->]|Hin]; [|by apply HD].
        rewrite Hshared. exists v1'. split; [|split].
        -- rewrite HC by done. apply lookup_insert_eq.
        -- eapply newValue_weaken; [| |exact Hv1'].
           ++ by apply subseteq_dom.
           ++ by apply subseteq_dom.
        -- intros h2 depth H2. rewrite Hobs by (by etrans).
           by apply observe_ext.
Qed.

(** One value that cannot be duplicated makes the whole loop fail. *)
Lemma copyEntries_fails keys h entries k v e :
  closedHeap h -> Forall (fun kv => closedValue h kv.2) entries ->
  (k, v) ∈ entries -> default false (keys !! k) = false ->
  deepCopyValue h v = Err e ->
  forall newData hc, h ⊆ hc ->
    exists e', copyEntries keys entries newData hc = Err e'.
Proof.
  intros Hh Hclosed Hin Hshared Herr.
  induction entries as [|[k1 v1] rest IH]; intros newData hc Hsub;
    [by apply elem_of_nil in Hin|].
  apply Forall_cons in Hclosed as [Hv1 Hclosed]. cbn [snd] in Hv1.
  cbn [copyEntries].
  apply elem_of_cons in Hin as [[= <- <-]|Hin].
  - rewrite Hshared. destruct (deepCopyValue_ext h hc v e) as [e' ->]; try done.
    by eexists.
  - destruct (default false (keys !! k1)); [by apply IH|].
    destruct (deepCopyValue hc v1) as [[v1' h1]|] eqn:Hcopy; [|by eexists].
    apply deepCopyValue_clones in Hcopy as (Hc1 & _).
    apply IH; [done|done|by etrans].
Qed.

End copying.

(** C4. [Copy] yields a new Context with the same shared-key marks.  An
    entry whose key is marked shared holds in the new store the very same
    reference, so whatever is written to the object behind it, through
    either store, is read through both.  Any other entry holds a clone: a
    reader sees through it what was seen through the original value, its
    objects are all new, so that no write to an object reached from the
    clone changes what is read through the original store, and no write to
    an object reached from the original store changes what is read through
    the clone.  If some unshared value cannot be duplicated, [Copy] returns
    an error and no Context.  (Stated for a gob that meets [GobContract]
    and for a heap and a store without dangling references.) *)
Theorem Copy_shares_or_clones `{Gob} (w : World) (c : Context) (h : Heap) :
  GobContract -> closedHeap h -> closedContext c h ->
  (forall c' h', Copy w c h = Ok (c', h') ->
     shallowCopyKeys c' = shallowCopyKeys c
     /\ h ⊆ h'
     /\ (forall key, data c !! key = None -> data c' !! key = None)
     /\ (forall key v, data c !! key = Some v -> isShared c key = true ->
           data c' !! key = Some v
           /\ forall depth h2, read depth c' h2 key = read depth c h2 key)
     /\ (forall key v, data c !! key = Some v -> isShared c key = false ->
           exists v',
             data c' !! key = Some v'
             /\ (forall depth, observe depth h' v' = observe depth h v)
             /\ (forall l, reach h' v' l -> l ∉ dom h)
             /\ (forall l cells depth key2, reach h' v' l ->
                   read depth c (write h' l cells) key2 = read depth c h' key2)
             /\ (forall l cells depth key2 v2,
                   data c !! key2 = Some v2 -> reach h' v2 l ->
                   observe depth (write h' l cells) v' = observe depth h' v')))
  /\ (forall key v e,
        data c !! key = Some v -> isShared c key = false ->
        deepCopyValue h v = Err e ->
        exists e', Copy w c h = Err e').
Proof.
  intros contract Hh Hc.
  pose proof (closedContext_entries (w_dataSeed w) c h Hc) as Hentries.
  pose proof (range_NoDup_keys (w_dataSeed w) (data c)) as Hnd.
  split.
  - intros c' h'. unfold Copy. rewrite foldl_insert_range.
    destruct (copyEntries _ _ _ _) as [[newData h1]|] eqn:Hcopy; [|done].
    intros [= <- <-]. cbn [data shallowCopyKeys].
    destruct (copyEntries_spec contract _ h _ Hh Hentries Hnd _ _ _ _
                (reflexivity h) (newHeap_refl h) Hcopy) as (Hsub & Hnew & Hout & Hin).
    split; [done|]. split; [done|]. split; [|split].
    + intros key Hkey. rewrite Hout; [done|].
      intros Hk. apply list_elem_of_fmap in Hk as [[k v] [-> Hk]].
      apply range_lookup in Hk. cbn [fst] in Hkey. congruence.
    + intros key v Hkey Hshared.
      pose proof (Hin key v (proj2 (range_lookup _ _ _ _) Hkey)) as Hk.
      unfold isShared in Hshared. rewrite Hshared in Hk. split; [done|].
      intros depth h2. unfold read, Get. cbn [data]. by rewrite Hk, Hkey.
    + intros key v Hkey Hshared.
      pose proof (Hin key v (proj2 (range_lookup _ _ _ _) Hkey)) as Hk.
      unfold isShared in Hshared. rewrite Hshared in Hk.
      destruct Hk as (v' & Hv' & Hnv & Hobs).
      assert (forall l, reach h1 v' l -> l ∉ dom h) as Hfresh
        by (intros l; by apply reach_new).
      assert (forall v2 l, (exists key2, data c !! key2 = Some v2) ->
                reach h1 v2 l -> l ∈ dom h) as Hold.
      { intros v2 l [key2 Hkey2]. apply reach_closed; [done| |done].
        by apply (Hc key2 v2). }
      exists v'. split; [done|]. split; [by intros depth; apply Hobs|].
      split; [done|]. split.
      * intros l cells depth key2 Hl. apply read_frame.
        intros v2 l' Hkey2 Hl' Heq. subst l'.
        apply (Hfresh l Hl). apply (Hold v2); eauto.
      * intros l cells depth key2 v2 Hkey2 Hl. apply observe_frame.
        intros l' Hl' Heq. subst l'.
        apply (Hfresh l Hl'). apply (Hold v2); eauto.
  - intros key v e Hkey Hshared Herr. unfold Copy.
    destruct (copyEntries_fails contract (shallowCopyKeys c) h
                (range (w_dataSeed w) (data c)) key v e Hh Hentries
                (proj2 (range_lookup _ _ _ _) Hkey) Hshared Herr ∅ h (reflexivity h))
      as [e' He'].
    rewrite He'. by eexists.
Qed.




Import examples.

Lemma exampleHeap_closed : closedHeap exampleHeap.
Proof.
  apply map_Forall_to_list. vm_compute map_to_list.
  repeat constructor.
Qed.

Lemma exampleContext_closed : closedContext exampleContext exampleHeap.
Proof.
  apply map_Forall_to_list. vm_compute map_to_list.
  repeat constructor; by eexists.
Qed.

Lemma Copy_shares_or_clones_witness :
  exists c' h',
    @Copy exampleGob copyWorld exampleContext exampleHeap = Ok (c', h')
    /\ data c' !! "b" = Some (VRef 2%positive)
    /\ (exists v', data c' !! "a" = Some v'
                   /\ forall l, reach h' v' l -> l ∉ dom exampleHeap)
    /\ exists e', @Copy exampleGob copyWorld opaqueContext opaqueHeap = Err e'.
Proof.
  destruct (@Copy exampleGob copyWorld exampleContext exampleHeap)
    as [[c' h']|] eqn:Hcopy;
    [|vm_compute in Hcopy; discriminate].
  exists c', h'. split; [reflexivity|].
  destruct (@Copy_shares_or_clones exampleGob copyWorld exampleContext exampleHeap
              (gob_model_contract 8) exampleHeap_closed exampleContext_closed)
    as [Hok _].
  destruct (Hok c' h' Hcopy) as (_ & _ & _ & Hshared & Hclone).
  split; [|split].
  - apply (Hshared "b" (VRef 2%positive)); reflexivity.
  - destruct (Hclone "a" (VRef 1%positive)) as (v' & Hv' & _ & Hfresh & _);
      [reflexivity|reflexivity|].
    exists v'. split; [exact Hv'|exact Hfresh].
  - destruct (@Copy_shares_or_clones exampleGob copyWorld opaqueContext opaqueHeap)
      as [_ Herr].
    + apply gob_model_contract.
    + apply map_Forall_to_list. vm_compute map_to_list. repeat constructor.
    + apply map_Forall_to_list. vm_compute map_to_list. repeat constructor.
      by eexists.
    + apply (Herr "ch" (VOpaque 1%positive)
               "failed to gob encode value: gob: type not registered for interface");
        reflexivity.
Defined.

(** The scenario of the specification: after the copy, a write through the
    copy's unshared ["a"] leaves the original's ["a"] at [[1, 2]], and a
    write through the shared ["b"] is read through both stores. *)
Example copy_then_mutate :
  let '(c', h') := copiedExample in
  data c' !! "a" = Some (VRef 3%positive)
  /\ data c' !! "b" = Some (VRef 2%positive)
  /\ (let h2 := write h' 3%positive [VInt 9; VInt 2] in
      read 2 exampleContext h2 "a" = OObject false [OInt 1; OInt 2]
      /\ read 2 c' h2 "a" = OObject false [OInt 9; OInt 2])
  /\ (let h2 := write h' 2%positive [VString "y"] in
      read 2 exampleContext h2 "b" = OObject false [OString "y"]
      /\ read 2 c' h2 "b" = OObject false [OString "y"]).
Proof. vm_compute. repeat split; reflexivity. Qed.

End context_facts.

(* ===================================================================== *)
(** * The parallel task delegator                                          *)
(* ===================================================================== *)

Module delegator_facts.
Import assistants examples.

(** A goroutine writes its own error slot, and at most its own result
    slot, with values that do not depend on the slots. *)
Lemma goroutine_writes p w (i : nat) (description : string) :
  exists (res : option string) (err : option string),
    forall slots : Slots,
      goroutine p w slots (i, description)
      = (match res with Some r => <[i := r]> slots.1 | None => slots.1 end,
         <[i := err]> slots.2).
Proof.
  unfold goroutine. destruct (w_Copy w i).
  - destruct (w_BuildAgent w _).
    + destruct (w_Run w _ description).
      * eexists (Some _), _. by intros [results errs].
      * eexists (Some _), _. by intros [results errs].
    + eexists None, _. by intros [results errs].
  - eexists None, _. by intros [results errs].
Qed.

(** Two goroutines write different slots, so they commute. *)
Lemma goroutine_comm p w slots (j1 j2 : nat * string) :
  j1.1 <> j2.1 ->
  goroutine p w (goroutine p w slots j1) j2 = goroutine p w (goroutine p w slots j2) j1.
Proof.
  intros Hne. destruct j1 as [i1 d1], j2 as [i2 d2]. cbn [fst] in Hne.
  destruct (goroutine_writes p w i1 d1) as (r1 & e1 & H1).
  destruct (goroutine_writes p w i2 d2) as (r2 & e2 & H2).
  repeat (rewrite H1 || rewrite H2). cbn [fst snd].
  rewrite (list_insert_insert_ne slots.2 i1 i2) by done.
  destruct r1, r2; try done.
  by rewrite (list_insert_insert_ne slots.1 i1 i2).
Qed.

(** The slots after all goroutines are done do not depend on the order in
    which they ran. *)
Lemma goroutines_any_order p w (l l' : list (nat * string)) :
  l ≡ₚ l' -> NoDup l.*1 ->
  forall slots, foldl (goroutine p w) slots l = foldl (goroutine p w) slots l'.
Proof.
  induction 1 as [|x l l' _ IH|x y l|l l' l'' H1 IH1 H2 IH2]; intros Hnd slots.
  - done.
  - rewrite fmap_cons in Hnd. apply NoDup_cons in Hnd as [_ Hnd]. cbn [foldl]. by apply IH.
  - rewrite !fmap_cons in Hnd. apply NoDup_cons in Hnd as [Hy _].
    cbn [foldl]. rewrite goroutine_comm; [done|].
    intros Heq. apply Hy. rewrite Heq. left.
  - rewrite IH1 by done. apply IH2. by rewrite <- H1.
Qed.

Lemma launch_started tasks i results :
  Forall (fun j => i <= j.1)%nat (launch tasks i results).2
  /\ NoDup (launch tasks i results).2.*1.
Proof.
  revert i results. induction tasks as [|task tasks IH]; intros i results; cbn [launch].
  - split; constructor.
  - destruct (assert_string task) as [taskDesc []].
    + destruct (IH (S i) results) as [Hge Hnd].
      destruct (launch tasks (S i) results) as [results' started]. cbn [snd] in *.
      split.
      * constructor; [done|]. eapply Forall_impl; [exact Hge|]. intros j. simpl. lia.
      * rewrite fmap_cons. apply NoDup_cons. split; [|done].
        intros Hin. apply list_elem_of_fmap in Hin as [j [Hj Hin]].
        eapply Forall_forall in Hge; [|exact Hin]. simpl in *. lia.
    + destruct (IH (S i) (<[i := "任务 #" ++ fmt.d (Z.of_nat i) ++ " 的输入无效（不是字符串）"]> results))
        as [Hge Hnd].
      split; [|done]. eapply Forall_impl; [exact Hge|]. intros j. simpl. lia.
Qed.

(** What [Execute] returns does not depend on the order in which the
    goroutines complete. *)
Lemma Execute_any_schedule p cp ba run schedule args :
  Execute p (mkWorld cp ba run schedule) args = Execute p (mkWorld cp ba run []) args.
Proof.
  unfold Execute. destruct (assert_slice _) as [tasks []]; [|done].
  destruct (launch_started tasks 0 (make "" (len tasks))) as [_ Hnd].
  destruct (launch tasks 0 _) as [results started]. cbn [snd] in Hnd.
  cbn [w_schedule Go.shuffle].
  rewrite (goroutines_any_order p (mkWorld cp ba run schedule)
             (shuffle schedule started) started);
    [done|apply shuffle_perm|by rewrite shuffle_perm].
Qed.

Lemma launch_strings (ds : list string) (i : nat) (results : list string) :
  launch (JString <$> ds) i results = (results, zip (seq i (length ds)) ds).
Proof.
  revert i. induction ds as [|description ds IH]; intros i; [done|].
  rewrite fmap_cons. cbn [launch assert_string]. by rewrite IH.
Qed.

(** The goroutines leave alone the slots of the tasks they were not
    started for. *)
Lemma goroutines_untouched p w (l : list (nat * string)) (slots : Slots) (i : nat) :
  i ∉ l.*1 ->
  (foldl (goroutine p w) slots l).1 !! i = slots.1 !! i
  /\ (foldl (goroutine p w) slots l).2 !! i = slots.2 !! i.
Proof.
  revert slots. induction l as [|[i1 d1] l IH]; intros slots Hi; [done|].
  rewrite fmap_cons in Hi. apply not_elem_of_cons in Hi as [Hne Hi]. cbn [fst] in Hne.
  cbn [foldl]. destruct (IH (goroutine p w slots (i1, d1)) Hi) as [-> ->].
  destruct (goroutine_writes p w i1 d1) as (res & err & ->). cbn [fst snd].
  rewrite list_lookup_insert_ne by done. split; [|done].
  destruct res; [|done]. by rewrite list_lookup_insert_ne.
Qed.

(** After all goroutines are done, the slots of a task hold its outcome. *)
Lemma goroutines_written p w (l : list (nat * string)) (slots : Slots) i description :
  NoDup l.*1 -> (i, description) ∈ l ->
  slots.1 !! i = Some "" -> slots.2 !! i = Some None ->
  (foldl (goroutine p w) slots l).1 !! i = Some (outcome p w i description).1
  /\ (foldl (goroutine p w) slots l).2 !! i = Some (outcome p w i description).2.
Proof.
  revert slots. induction l as [|[i1 d1] l IH]; intros slots Hnd Hin Hres Herr;
    [by apply elem_of_nil in Hin|].
  rewrite fmap_cons in Hnd. apply NoDup_cons in Hnd as [Hi1 Hnd]. cbn [fst] in Hi1.
  cbn [foldl]. apply elem_of_cons in Hin as [[= <- <-]|Hin].
  - destruct (goroutines_untouched p w l (goroutine p w slots (i, description)) i Hi1)
      as [-> ->].
    unfold outcome.
    destruct (goroutine_writes p w i description) as (res & err & Hw). rewrite !Hw.
    cbn [fst snd].
    pose proof (lookup_lt_Some _ _ _ Hres). pose proof (lookup_lt_Some _ _ _ Herr).
    rewrite !list_lookup_insert_eq by (rewrite ?length_replicate; lia).
    split; [|done]. destruct res.
    + rewrite !list_lookup_insert_eq by (rewrite ?length_replicate; lia). done.
    + rewrite lookup_replicate_2 by lia. done.
  - apply IH; try done.
    + destruct (goroutine_writes p w i1 d1) as (res & err & ->). cbn [fst].
      assert (i <> i1) as Hne.
      { intros ->. apply Hi1. apply list_elem_of_fmap. by exists (i1, description). }
      destruct res; [|done]. by rewrite list_lookup_insert_ne.
    + destruct (goroutine_writes p w i1 d1) as (res & err & ->). cbn [snd].
      assert (i <> i1) as Hne.
      { intros ->. apply Hi1. apply list_elem_of_fmap. by exists (i1, description). }
      by rewrite list_lookup_insert_ne.
Qed.

(** The loop after the join writes one section per task, in input order. *)
Lemma aggregate_sections p w (ds : list string) (i : nat) results errs
    finalResult aggregatedErrs :
  (forall k description, ds !! k = Some description ->
     results !! (i + k)%nat = Some (outcome p w (i + k) description).1
     /\ errs !! (i + k)%nat = Some (outcome p w (i + k) description).2) ->
  aggregate (length ds) i results errs finalResult aggregatedErrs
  = (finalResult ++ sectionsFrom p w i ds,
     (aggregatedErrs ++ failuresFrom p w i ds)%list).
Proof.
  revert i finalResult aggregatedErrs.
  induction ds as [|description ds IH]; intros i finalResult aggregatedErrs Hslots.
  - cbn [length aggregate sectionsFrom failuresFrom].
    by rewrite strings_facts.append_empty_r, app_nil_r.
  - destruct (Hslots 0%nat description eq_refl) as [Hres Herr].
    rewrite Nat.add_0_r in Hres, Herr.
    assert (forall k d, ds !! k = Some d ->
              results !! (S i + k)%nat = Some (outcome p w (S i + k) d).1
              /\ errs !! (S i + k)%nat = Some (outcome p w (S i + k) d).2) as Hrest.
    { intros k d Hk. replace (S i + k)%nat with (i + S k)%nat by lia.
      by apply Hslots. }
    cbn [length aggregate sectionsFrom failuresFrom]. rewrite Hres, Herr.
    unfold sectionOf, failureOf.
    destruct (outcome p w i description) as [result [e|]];
      cbn [fst snd default from_option id].
    + rewrite IH by done. f_equal.
      * by rewrite !strings_facts.append_assoc.
      * by rewrite <- app_assoc.
    + rewrite IH by done. f_equal.
      by rewrite !strings_facts.append_assoc.
Qed.

(** For a list of task descriptions, the aggregated text is the sequence of
    the sections of the tasks in input order, whatever the order in which
    the child runs complete; the section of a task and its failure depend
    on the outcome of that task alone; and the error is non-nil exactly
    when some task failed. *)
Lemma Execute_sections p w args (ds : list string) :
  index_any args "tasks" = JArray (JString <$> ds) ->
  Execute p w args
  = (sectionsFrom p w 0 ds,
     match failuresFrom p w 0 ds with
     | [] => None
     | failures => Some (strings.Join failures "; ")
     end).
Proof.
  intros Hargs. unfold Execute. rewrite Hargs. cbn [assert_slice].
  rewrite launch_strings.
  set (started := zip (seq 0 (length ds)) ds).
  assert (NoDup started.*1) as Hnd.
  { subst started. rewrite fst_zip by (rewrite length_seq; lia). apply NoDup_seq. }
  rewrite (goroutines_any_order p w (shuffle (w_schedule w) started) started);
    [|apply shuffle_perm|by rewrite shuffle_perm].
  destruct (foldl (goroutine p w) _ started) as [results errs] eqn:Hfold.
  unfold len. rewrite length_fmap.
  rewrite (aggregate_sections p w ds 0 results errs "" []).
  - cbn [String.append app]. by destruct (failuresFrom p w 0 ds).
  - intros k description Hk. cbn [Nat.add].
    assert ((k, description) ∈ started) as Hin.
    { subst started. apply list_elem_of_lookup. exists k.
      apply lookup_zip_Some. split; [|done].
      apply lookup_seq. split; [done|]. by eapply lookup_lt_Some. }
    pose proof (lookup_lt_Some _ _ _ Hk) as Hlt.
    pose proof (goroutines_written p w started
                  (make "" (len (JString <$> ds)), make None (len (JString <$> ds)))
                  k description Hnd Hin) as Hw.
    rewrite Hfold in Hw. apply Hw; cbn [fst snd]; unfold make, len;
      rewrite Nat2Z.id, length_fmap; by apply lookup_replicate_2.
Qed.

(** A child run that fails is reported under the position of its task
    counted from zero, while the header of its section counts from one. *)
Lemma failed_run_outcome p w (i : nat) (description err : string) :
  w_Copy w i = Ok tt ->
  w_BuildAgent w (subAgentConfig_Name p ++ "_task_" ++ fmt.d (Z.of_nat i)) = Ok tt ->
  w_Run w (subAgentConfig_Name p ++ "_task_" ++ fmt.d (Z.of_nat i)) description = Err err ->
  outcome p w i description
  = ("子 agent 执行失败: " ++ err,
     Some ("任务 #" ++ fmt.d (Z.of_nat i) ++ ": 执行失败: " ++ err)).
Proof.
  intros Hcopy Hbuild Hrun. unfold outcome, goroutine.
  rewrite Hcopy, Hbuild, Hrun.
  by rewrite !list_lookup_insert_eq by (rewrite length_replicate; lia).
Qed.

(** C3, at tasks [T1, T2, T3] with the child run of T2 failing: whatever
    the order of completion, the text has the three sections in the order
    1, 2, 3 with the results of T1 and T3 intact, and a non-nil error comes
    with it; but the error (and the text of section 2) names the failed
    task as number 1, its position counted from zero, where the sections
    count from one. *)
Theorem Execute_second_task_fails (schedule : list nat) :
  Execute exampleDelegator (secondFails schedule) threeTasks
  = (secondFailsText, Some "错误: 任务 #1: 执行失败: boom").
Proof. unfold secondFails. rewrite Execute_any_schedule. vm_compute. reflexivity. Qed.

End delegator_facts.
